(** * simple_db: a chained hash-table key-value store

    Shallow embedding of [src/core/simple_db.c] and the properties of
    its public interface.

    Modelling conventions.
    - The platform is LP64: [size_t] and [uint64_t] are 64-bit unsigned
      integers and a pointer takes 8 bytes.  Integers are values in [Z]
      with the wrap-around of every arithmetic operation written out;
      [double] is IEEE 754 binary64.
    - A NUL-terminated C string is modelled by its contents, the bytes
      before the terminator, as a [string].
    - A pointer that may be NULL is an [option]; NULL is [None].
    - A bucket chain (the [Entry] nodes linked through [next]) is the
      list of its entries from head to tail; the bucket array is a list of
      chains.
    - [malloc] and [calloc] may fail.  The functions that allocate run in
      a state monad over the outcomes of the coming allocation requests.
    - A function that mutates [*db] returns the table after the call. *)

From Stdlib Require Import ZArith Lia String Ascii.
From Stdlib Require Floats.SpecFloat.
From stdpp Require Import base strings numbers list gmap pretty.

Local Open Scope string_scope.
Local Open Scope list_scope.
Local Open Scope Z_scope.

(** * The program *)

(** ** Machine integers *)

Definition SIZE_MAX : Z := 2 ^ 64 - 1.

(** Reduction of an arithmetic result to 64 bits. *)
Definition wrap (z : Z) : Z := z mod 2 ^ 64.

(** ** C strings *)

Abbreviation cstr := string.

(** [strcmp(a, b) == 0] *)
Definition strcmp0 (a b : cstr) : bool := String.eqb a b.
Arguments strcmp0 : simpl never.

(** [strlen(s)] *)
Definition strlen (s : cstr) : Z := Z.of_nat (String.length s).

(** ** The allocator *)

(** The outcomes of the coming allocation requests, in program order;
    requests beyond the recorded ones succeed. *)
Definition heap : Type := list bool.

Definition alloc (A : Type) : Type := heap -> A * heap.

Definition ret {A : Type} (a : A) : alloc A := fun h => (a, h).

Definition bind {A B : Type} (m : alloc A) (f : A -> alloc B) : alloc B :=
  fun h => let (a, h') := m h in f a h'.

Notation "x <- m ;; f" := (bind m (fun x => f))
  (at level 100, m at next level, right associativity).

(** [malloc(size) != NULL] *)
Definition malloc (size : Z) : alloc bool :=
  fun h => match h with
           | [] => (true, [])
           | b :: h' => (b, h')
           end.

(** [calloc(nmemb, size) != NULL]: a request whose byte count does not fit
    [size_t] fails. *)
Definition calloc (nmemb size : Z) : alloc bool :=
  if SIZE_MAX <? nmemb * size then ret false else malloc (nmemb * size).

(** [dup_str]: a fresh copy of [s], or NULL. *)
Definition dup_str (s : cstr) : alloc (option cstr) :=
  d <- malloc (wrap (strlen s + 1)) ;;
  ret (if d then Some s else None).

(** ** Internal structures *)

Definition INITIAL_CAPACITY : Z := 64.

Record Entry : Type := mkEntry { key : cstr; value : cstr }.

Abbreviation chain := (list Entry).

Record SimpleDB : Type := mkDB {
  buckets : list chain;
  capacity : Z;
  count : Z
}.

Record DBStats : Type := mkStats {
  total_entries : Z;
  total_collisions : Z;
  max_chain_length : Z;
  used_buckets : Z
}.

Definition sizeof_ptr : Z := 8.
Definition sizeof_Entry : Z := 24.
Definition sizeof_SimpleDB : Z := 24.

(** [buckets[idx]] *)
Definition bucket_at (bs : list chain) (idx : Z) : chain :=
  default [] (bs !! Z.to_nat idx).

(** [buckets[idx] = c] *)
Definition bucket_store (bs : list chain) (idx : Z) (c : chain) : list chain :=
  <[Z.to_nat idx := c]> bs.

(** ** FNV-1a 64-bit hash *)

Definition FNV_OFFSET : Z := 14695981039346656037.
Definition FNV_PRIME : Z := 1099511628211.

Fixpoint fnv1a_loop (s : cstr) (hash : Z) : Z :=
  match s with
  | EmptyString => hash
  | String c s' =>
      let hash := Z.lxor hash (Z.of_N (N_of_ascii c)) in
      let hash := wrap (hash * FNV_PRIME) in
      fnv1a_loop s' hash
  end.

Definition fnv1a (s : cstr) : Z := fnv1a_loop s FNV_OFFSET.

Definition bucket_index (hash capacity : Z) : Z :=
  Z.land hash (wrap (capacity - 1)).

(** ** The load-factor test *)

(** [(double)n] for a [size_t] value [n]: exact below [2^53], rounded to
    53 significant bits (to nearest, ties to even) from there on. *)
Definition double_of_size (n : Z) : Z :=
  if n <? 2 ^ 53 then n
  else
    let e := Z.log2 n - 52 in
    let q := n / 2 ^ e in
    let r := n mod 2 ^ e in
    let half := 2 ^ (e - 1) in
    let q := if (half <? r) || ((r =? half) && Z.odd q) then q + 1 else q in
    q * 2 ^ e.

(** [a / b > LOAD_FACTOR_MAX] in binary64, for the non-negative integral
    doubles [a] and [b].  The quotient is rounded to nearest, ties to even;
    0.75 is a double with an even significand and its successor is
    [0.75 + 2^-53], so the rounded quotient exceeds 0.75 exactly when the
    real quotient exceeds the midpoint [0.75 + 2^-54].  A positive number
    over zero is [+inf]; [0.0 / 0.0] is a NaN and compares false. *)
Definition quotient_gt_LOAD_FACTOR_MAX (a b : Z) : bool :=
  if b =? 0 then 0 <? a
  else (3 * 2 ^ 52 + 1) * b <? 2 ^ 54 * a.

(** [(double)(db->count + 1) / (double)db->capacity > LOAD_FACTOR_MAX] *)
Definition load_exceeded (db : SimpleDB) : bool :=
  quotient_gt_LOAD_FACTOR_MAX
    (double_of_size (wrap (count db + 1)))
    (double_of_size (capacity db)).

(** ** Resize *)

(** One step of the relinking loop: the entry becomes the head of its
    chain in the new array. *)
Definition relink (new_cap : Z) (new_buckets : list chain) (e : Entry)
  : list chain :=
  let idx := bucket_index (fnv1a (key e)) new_cap in
  bucket_store new_buckets idx (e :: bucket_at new_buckets idx).

(** The [while (e)] loop of [rehash] over one old chain. *)
Definition relink_chain (new_cap : Z) (new_buckets : list chain) (c : chain)
  : list chain :=
  fold_left (relink new_cap) c new_buckets.

Definition rehash (db : SimpleDB) (new_cap : Z) : alloc (bool * SimpleDB) :=
  ok <- calloc new_cap sizeof_ptr ;;
  if negb ok then ret (false, db)
  else
    let new_buckets :=
      fold_left (relink_chain new_cap)
                (take (Z.to_nat (capacity db)) (buckets db))
                (replicate (Z.to_nat new_cap) []) in
    ret (true, mkDB new_buckets new_cap (count db)).

(** ** Lifecycle *)

Definition db_create : alloc (option SimpleDB) :=
  db <- malloc sizeof_SimpleDB ;;
  if negb db then ret None
  else
    bs <- calloc INITIAL_CAPACITY sizeof_ptr ;;
    if negb bs then ret None
    else ret (Some (mkDB (replicate (Z.to_nat INITIAL_CAPACITY) [])
                         INITIAL_CAPACITY 0)).

(** ** CRUD *)

(** The outcome of the update loop of [db_set] over a chain. *)
Inductive walk : Type :=
| walk_updated (c : chain)   (* the value of the matching entry replaced *)
| walk_nomem                 (* matching entry found, [dup_str] failed *)
| walk_absent.               (* end of chain reached *)

Fixpoint update_walk (e : chain) (k v : cstr) : alloc walk :=
  match e with
  | [] => ret walk_absent
  | x :: next =>
      if strcmp0 (key x) k then
        new_val <- dup_str v ;;
        match new_val with
        | None => ret walk_nomem
        | Some nv => ret (walk_updated (mkEntry (key x) nv :: next))
        end
      else
        r <- update_walk next k v ;;
        ret (match r with
             | walk_updated c => walk_updated (x :: c)
             | other => other
             end)
  end.

(** [db_set] after the NULL checks and the resize. *)
Definition set_in_bucket (db : SimpleDB) (k v : cstr) : alloc (bool * SimpleDB) :=
  let hash := fnv1a k in
  let idx := bucket_index hash (capacity db) in
  let e := bucket_at (buckets db) idx in
  r <- update_walk e k v ;;
  match r with
  | walk_updated c =>
      ret (true, mkDB (bucket_store (buckets db) idx c) (capacity db) (count db))
  | walk_nomem => ret (false, db)
  | walk_absent =>
      ne <- malloc sizeof_Entry ;;
      if negb ne then ret (false, db)
      else
        ne_key <- dup_str k ;;
        match ne_key with
        | None => ret (false, db)
        | Some nk =>
            ne_value <- dup_str v ;;
            match ne_value with
            | None => ret (false, db)
            | Some nv =>
                ret (true,
                     mkDB (bucket_store (buckets db) idx
                             (mkEntry nk nv :: bucket_at (buckets db) idx))
                          (capacity db)
                          (wrap (count db + 1)))
            end
        end
  end.

(** The resize step at the head of [db_set]: [false] when [rehash] failed. *)
Definition resize_if_exceeded (db : SimpleDB) : alloc (bool * SimpleDB) :=
  if load_exceeded db then rehash db (wrap (capacity db * 2))
  else ret (true, db).

Definition db_set (db : option SimpleDB) (k v : option cstr)
  : alloc (bool * option SimpleDB) :=
  match db, k, v with
  | Some d, Some k, Some v =>
      r <- resize_if_exceeded d ;;
      let (ok, d) := r in
      if negb ok then ret (false, Some d)
      else
        r <- set_in_bucket d k v ;;
        ret (fst r, Some (snd r))
  | _, _, _ => ret (false, db)
  end.

Fixpoint chain_get (e : chain) (k : cstr) : option cstr :=
  match e with
  | [] => None
  | x :: next => if strcmp0 (key x) k then Some (value x) else chain_get next k
  end.

Definition db_get (db : option SimpleDB) (k : option cstr) : option cstr :=
  match db, k with
  | Some d, Some k =>
      let idx := bucket_index (fnv1a k) (capacity d) in
      chain_get (bucket_at (buckets d) idx) k
  | _, _ => None
  end.

(** The unlinking loop of [db_delete]: the chain without its first entry
    for [k], or [None] when the end of the chain is reached. *)
Fixpoint chain_unlink (e : chain) (k : cstr) : option chain :=
  match e with
  | [] => None
  | x :: next =>
      if strcmp0 (key x) k then Some next
      else option_map (cons x) (chain_unlink next k)
  end.

Definition db_delete (db : option SimpleDB) (k : option cstr)
  : bool * option SimpleDB :=
  match db, k with
  | Some d, Some k =>
      let idx := bucket_index (fnv1a k) (capacity d) in
      match chain_unlink (bucket_at (buckets d) idx) k with
      | Some c =>
          (true, Some (mkDB (bucket_store (buckets d) idx c)
                            (capacity d)
                            (wrap (count d - 1))))
      | None => (false, Some d)
      end
  | _, _ => (false, db)
  end.

Definition db_exists (db : option SimpleDB) (k : option cstr) : bool :=
  match db_get db k with
  | Some _ => true
  | None => false
  end.

(** ** Utility *)

Definition db_count (db : option SimpleDB) : Z :=
  match db with
  | Some d => count d
  | None => 0
  end.

(** [db_clear]: [memset] empties the slots its byte count covers. *)
Definition db_clear (db : option SimpleDB) : option SimpleDB :=
  match db with
  | Some d =>
      let n := Z.to_nat (wrap (capacity d * sizeof_ptr) / sizeof_ptr) in
      Some (mkDB (replicate n [] ++ drop n (buckets d)) (capacity d) 0)
  | None => None
  end.

(** The [while (e)] loop of [db_keys] over one chain; [arr] holds the
    [pos] copies made so far.  [None]: a copy failed. *)
Fixpoint keys_chain (e : chain) (arr : list cstr) : alloc (option (list cstr)) :=
  match e with
  | [] => ret (Some arr)
  | x :: next =>
      d <- dup_str (key x) ;;
      match d with
      | None => ret None
      | Some k => keys_chain next (arr ++ [k])
      end
  end.

(** The [for] loop of [db_keys]; it stops before the first bucket that is
    reached with [pos >= cnt]. *)
Fixpoint keys_buckets (bs : list chain) (cnt : Z) (arr : list cstr)
  : alloc (option (list cstr)) :=
  match bs with
  | [] => ret (Some arr)
  | e :: bs' =>
      if Z.of_nat (length arr) <? cnt then
        r <- keys_chain e arr ;;
        match r with
        | None => ret None
        | Some arr' => keys_buckets bs' cnt arr'
        end
      else ret (Some arr)
  end.

(** [db_keys(db, out_count)]: the returned array (or NULL) and the cell
    behind [out_count] after the call. *)
Definition db_keys (db : option SimpleDB) (out_count : option Z)
  : alloc (option (list cstr) * option Z) :=
  match db, out_count with
  | Some d, Some _ =>
      if count d =? 0 then ret (None, Some 0)
      else
        arr <- malloc (wrap (count d * sizeof_ptr)) ;;
        if negb arr then ret (None, Some 0)
        else
          r <- keys_buckets (take (Z.to_nat (capacity d)) (buckets d))
                            (count d) [] ;;
          match r with
          | None => ret (None, Some 0)
          | Some a => ret (Some a, Some (Z.of_nat (length a)))
          end
  | _, _ => ret (None, out_count)
  end.

(** The counting loop of [db_stats]. *)
Fixpoint chain_count (e : chain) (n : Z) : Z :=
  match e with
  | [] => n
  | _ :: next => chain_count next (wrap (n + 1))
  end.

(** One iteration of the bucket loop of [db_stats]. *)
Definition stats_bucket (s : DBStats) (e : chain) : DBStats :=
  match e with
  | [] => s
  | _ :: _ =>
      let s := mkStats (total_entries s) (total_collisions s)
                       (max_chain_length s) (wrap (used_buckets s + 1)) in
      let n := chain_count e 0 in
      let s := if 1 <? n
               then mkStats (total_entries s)
                            (wrap (total_collisions s + (n - 1)))
                            (max_chain_length s) (used_buckets s)
               else s in
      if max_chain_length s <? n
      then mkStats (total_entries s) (total_collisions s) n (used_buckets s)
      else s
  end.

Definition db_stats (db : option SimpleDB) : DBStats :=
  match db with
  | None => mkStats 0 0 0 0
  | Some d =>
      fold_left stats_bucket
                (take (Z.to_nat (capacity d)) (buckets d))
                (mkStats (count d) 0 0 0)
  end.

(** [db_print]: the text written to standard output. *)

(** The text of a [size_t] under the conversion [%zu]. *)
Definition print_size (n : Z) : string := pretty (Z.to_N n).

Definition newline : string := String (ascii_of_nat 10) EmptyString.

(** The output so far followed by that of
    [printf("  %s -> %s\n", e->key, e->value)]. *)
Definition print_entry (out : string) (e : Entry) : string :=
  out +:+ "  " +:+ key e +:+ " -> " +:+ value e +:+ newline.

(** The [while (e)] loop of [db_print] over one chain. *)
Definition print_chain (out : string) (c : chain) : string :=
  fold_left print_entry c out.

Definition db_print (db : option SimpleDB) : string :=
  match db with
  | None => "(null database)" +:+ newline
  | Some d =>
      fold_left print_chain
        (take (Z.to_nat (capacity d)) (buckets d))
        ("Database Contents (" +:+ print_size (count d) +:+ " entries):"
         +:+ newline)
  end.

(** * Specification vocabulary *)

(** The lines [db_print] writes for the keys [ks], each with the value
    [db_get] finds for it in [t]. *)
Definition printed_lines (t : SimpleDB) (ks : list cstr) : string :=
  foldr (fun k rest =>
           "  " +:+ k +:+ " -> "
           +:+ default EmptyString (db_get (Some t) (Some k)) +:+ newline
           +:+ rest)
        EmptyString ks.

(** The key-value pair an entry stores. *)
Definition pair_of (e : Entry) : cstr * cstr := (key e, value e).

(** The finite map a table represents: each stored key with its value. *)
Definition contents (t : SimpleDB) : gmap string string :=
  list_to_map (pair_of <$> concat (buckets t)).

(** The tables the interface leads to: [db_create], then [db_set] calls
    that succeed or fail, [db_delete] and [db_clear] calls in any order,
    with the number of [db_set] calls made. *)
Inductive op_reachable : nat -> SimpleDB -> Prop :=
| opr_create h t h' :
    db_create h = (Some t, h') -> op_reachable 0 t
| opr_set n t s v h b t' h' :
    op_reachable n t ->
    db_set (Some t) (Some s) (Some v) h = ((b, Some t'), h') ->
    op_reachable (S n) t'
| opr_delete n t s b t' :
    op_reachable n t ->
    db_delete (Some t) (Some s) = (b, Some t') ->
    op_reachable n t'
| opr_clear n t t' :
    op_reachable n t ->
    db_clear (Some t) = Some t' ->
    op_reachable n t'.

(** A heap on which no recorded allocation request fails. *)
Definition all_succeed (h : heap) : Prop := Forall (fun b => b = true) h.

(** The binary64 number [m * 2^e], rounded to nearest, ties to even, in
    the Standard Library's specification of IEEE 754 arithmetic. *)
Definition binary64 (m e : Z) : SpecFloat.spec_float :=
  SpecFloat.binary_normalize 53 1024 m e false.

(** The test of [db_set] computed in binary64: [0.75] is [3 * 2^-2]. *)
Definition load_exceeded_binary64 (db : SimpleDB) : bool :=
  SpecFloat.SFltb
    (binary64 3 (-2))
    (SpecFloat.SFdiv 53 1024
       (binary64 (wrap (count db + 1)) 0)
       (binary64 (capacity db) 0)).

(** Values of [count] and [capacity] around the thresholds of the test:
    where the conversions are exact, where [count + 1] is rounded, where it
    wraps around, and with a capacity of zero. *)
Definition load_test_points : list (Z * Z) :=
  [(47, 64); (48, 64); (95, 128); (96, 128); (0, 64);
   (3 * 2 ^ 51 - 1, 2 ^ 53); (3 * 2 ^ 51, 2 ^ 53);
   (3 * 2 ^ 52 - 1, 2 ^ 54); (3 * 2 ^ 52, 2 ^ 54); (3 * 2 ^ 52 + 1, 2 ^ 54);
   (3 * 2 ^ 52 + 2, 2 ^ 54); (3 * 2 ^ 58 + 2 ^ 7, 2 ^ 60);
   (3 * 2 ^ 58 + 2 ^ 8, 2 ^ 60); (2 ^ 53 + 1, 2 ^ 53 + 3);
   (2 ^ 64 - 2, 2 ^ 60); (2 ^ 64 - 1, 64); (5, 0); (2 ^ 64 - 1, 0)].

(** The entry [x] with its value replaced when its key is [k]. *)
Definition with_value (k v : cstr) (x : Entry) : Entry :=
  if strcmp0 (key x) k then mkEntry (key x) v else x.

(** Every entry sits in the bucket its key hashes to under [cap]. *)
Definition homed (cap : Z) (bs : list chain) : Prop :=
  forall i c x, bs !! i = Some c -> x ∈ c ->
                bucket_index (fnv1a (key x)) cap = Z.of_nat i.

(** All entries, bucket by bucket, each chain from head to tail. *)
Definition entries (t : SimpleDB) : list Entry := concat (buckets t).

Definition stored_keys (t : SimpleDB) : list cstr := key <$> entries t.

(** What [db_create] establishes and [db_set], [db_delete] and [db_clear]
    maintain: the capacity is a power of two whose bucket array [calloc]
    can provide, the array has [capacity] slots, every entry is in the
    bucket of its key, keys are pairwise distinct and [count] is the number
    of entries. *)
Record valid (t : SimpleDB) : Prop := mk_valid {
  valid_capacity : exists k, 6 <= k <= 60 /\ capacity t = 2 ^ k;
  valid_length : Z.of_nat (length (buckets t)) = capacity t;
  valid_homed : homed (capacity t) (buckets t);
  valid_distinct : NoDup (stored_keys t);
  valid_count : count t = Z.of_nat (length (entries t));
  valid_count_size : count t <= SIZE_MAX
}.

(** The table after a successful update of the entry for [s]. *)
Definition updated (t : SimpleDB) (s v : cstr) : SimpleDB :=
  mkDB (fmap (M:=list) (with_value s v) <$> buckets t) (capacity t) (count t).

(** The table after a successful insertion of a new entry for [s]. *)
Definition inserted (t : SimpleDB) (s v : cstr) : SimpleDB :=
  let idx := bucket_index (fnv1a s) (capacity t) in
  mkDB (bucket_store (buckets t) idx
          (mkEntry s v :: bucket_at (buckets t) idx))
       (capacity t) (wrap (count t + 1)).

(** The table after [db_delete] has unlinked an entry, leaving the chain
    [c] in the bucket of [s]. *)
Definition unlinked (t : SimpleDB) (s : cstr) (c : chain) : SimpleDB :=
  mkDB (bucket_store (buckets t) (bucket_index (fnv1a s) (capacity t)) c)
       (capacity t) (wrap (count t - 1)).

Definition chain_length (c : chain) : Z := Z.of_nat (length c).

(** The number of buckets whose chain is not empty. *)
Fixpoint nonempty_buckets (bs : list chain) : Z :=
  match bs with
  | [] => 0
  | [] :: bs' => nonempty_buckets bs'
  | (_ :: _) :: bs' => 1 + nonempty_buckets bs'
  end.

(** The sum over the buckets of [max (chain length - 1) 0]. *)
Fixpoint sum_collisions (bs : list chain) : Z :=
  match bs with
  | [] => 0
  | c :: bs' => Z.max (chain_length c - 1) 0 + sum_collisions bs'
  end.

(** The maximum of the chain lengths; zero with no bucket. *)
Fixpoint longest_chain (bs : list chain) : Z :=
  match bs with
  | [] => 0
  | c :: bs' => Z.max (chain_length c) (longest_chain bs')
  end.

(** The table [db_create] returns when its allocations succeed. *)
Definition created : SimpleDB :=
  mkDB (replicate (Z.to_nat INITIAL_CAPACITY) []) INITIAL_CAPACITY 0.

(** A run of [db_set] calls, one per pair, stopped by the first failure. *)
Fixpoint set_all (t : SimpleDB) (kvs : list (cstr * cstr))
  : alloc (option SimpleDB) :=
  match kvs with
  | [] => ret (Some t)
  | (s, v) :: kvs' =>
      r <- db_set (Some t) (Some s) (Some v) ;;
      match r with
      | (true, Some t') => set_all t' kvs'
      | _ => ret None
      end
  end.

(** The tables [db_create] and successful [db_set] calls lead to, with the
    number of [db_set] calls made. *)
Inductive set_reachable : nat -> SimpleDB -> Prop :=
| reach_create h t h' :
    db_create h = (Some t, h') -> set_reachable 0 t
| reach_set n t s v h t' h' :
    set_reachable n t ->
    db_set (Some t) (Some s) (Some v) h = ((true, Some t'), h') ->
    set_reachable (S n) t'.

Definition keys49 : list cstr :=
  ["k1"; "k2"; "k3"; "k4"; "k5"; "k6"; "k7"; "k8"; "k9"; "k10";
   "k11"; "k12"; "k13"; "k14"; "k15"; "k16"; "k17"; "k18"; "k19"; "k20";
   "k21"; "k22"; "k23"; "k24"; "k25"; "k26"; "k27"; "k28"; "k29"; "k30";
   "k31"; "k32"; "k33"; "k34"; "k35"; "k36"; "k37"; "k38"; "k39"; "k40";
   "k41"; "k42"; "k43"; "k44"; "k45"; "k46"; "k47"; "k48"; "k49"].

(** Each of the first [n] keys of [keys49] paired with the value ["v"]. *)
Definition pairs (n : nat) : list (cstr * cstr) :=
  (fun s => (s, "v")) <$> take n keys49.

(** [created] after [db_set] of the first [n] keys of [keys49]. *)
Definition table (n : nat) : SimpleDB :=
  default created (fst (set_all created (pairs n) [])).

(** * Properties *)

(** ** Machine arithmetic *)

Lemma wrap_small z : 0 <= z <= SIZE_MAX -> wrap z = z.
Proof. unfold wrap, SIZE_MAX. intros. apply Z.mod_small. lia. Qed.

Lemma pow2_le k n : 0 <= k <= n -> 1 <= 2 ^ k <= 2 ^ n.
Proof.
  intros Hk. split.
  - apply (Z.pow_le_mono_r 2 0 k); lia.
  - apply Z.pow_le_mono_r; lia.
Qed.

Lemma pow2_double k : 0 <= k -> 2 ^ k * 2 = 2 ^ (k + 1).
Proof. intros. rewrite Z.pow_add_r by lia. lia. Qed.

Lemma bucket_index_pow2 h k :
  0 <= k <= 63 -> bucket_index h (2 ^ k) = h mod 2 ^ k.
Proof.
  intros Hk. unfold bucket_index.
  pose proof (pow2_le k 63 Hk) as Hb.
  rewrite wrap_small by (unfold SIZE_MAX; lia).
  replace (2 ^ k - 1) with (Z.ones k) by (rewrite Z.ones_equiv; lia).
  apply Z.land_ones. lia.
Qed.

Lemma bucket_index_range h k :
  0 <= k <= 63 -> 0 <= bucket_index h (2 ^ k) < 2 ^ k.
Proof.
  intros Hk. rewrite bucket_index_pow2 by done.
  apply Z.mod_pos_bound. pose proof (pow2_le k 63 Hk). lia.
Qed.

Lemma double_of_size_exact n : n < 2 ^ 53 -> double_of_size n = n.
Proof.
  intros Hn. unfold double_of_size.
  destruct (Z.ltb_spec n (2 ^ 53)); [done | lia].
Qed.

(** A power of two has one significant bit: its conversion is exact. *)
Lemma double_of_size_pow2 k : 0 <= k -> double_of_size (2 ^ k) = 2 ^ k.
Proof.
  intros Hk. unfold double_of_size.
  destruct (Z.ltb_spec (2 ^ k) (2 ^ 53)) as [|Hge]; [done|].
  assert (53 <= k) as Hk53.
  { destruct (Z.le_gt_cases 53 k) as [|Hlt]; [done|].
    apply (Z.pow_lt_mono_r 2) in Hlt; lia. }
  rewrite Z.log2_pow2 by lia.
  assert (2 ^ k = 2 ^ 52 * 2 ^ (k - 52)) as Hsplit.
  { rewrite <- Z.pow_add_r by lia. f_equal. lia. }
  assert (0 < 2 ^ (k - 52)) by (apply Z.pow_pos_nonneg; lia).
  assert (0 < 2 ^ (k - 52 - 1)) as Hhalf by (apply Z.pow_pos_nonneg; lia).
  assert (2 ^ k / 2 ^ (k - 52) = 2 ^ 52) as Hq.
  { rewrite Hsplit. apply Z.div_mul. lia. }
  assert (2 ^ k mod 2 ^ (k - 52) = 0) as Hr.
  { rewrite Hsplit. apply Z.mod_mul. lia. }
  rewrite Hq, Hr.
  destruct (Z.ltb_spec (2 ^ (k - 52 - 1)) 0); [lia|].
  destruct (Z.eqb_spec 0 (2 ^ (k - 52 - 1))); [lia|].
  cbn [orb andb]. lia.
Qed.

(** As long as [count + 1] is below [2^53] the test of [db_set] is the
    exact comparison of [(count + 1) / capacity] with [3/4]. *)
Lemma load_exceeded_exact t k :
  capacity t = 2 ^ k -> 2 <= k <= 60 ->
  0 <= count t -> count t + 1 < 2 ^ 53 ->
  load_exceeded t = (3 * capacity t <? 4 * (count t + 1)).
Proof.
  intros Hcap Hk H0 Hn. unfold load_exceeded.
  rewrite wrap_small by (unfold SIZE_MAX; lia).
  rewrite double_of_size_exact by done.
  rewrite Hcap, double_of_size_pow2 by lia.
  assert (2 ^ k = 4 * 2 ^ (k - 2)) as Hsplit.
  { change 4 with (2 ^ 2). rewrite <- Z.pow_add_r by lia. f_equal. lia. }
  assert (0 < 2 ^ (k - 2)) by (apply Z.pow_pos_nonneg; lia).
  unfold quotient_gt_LOAD_FACTOR_MAX. rewrite Hsplit.
  destruct (Z.eqb_spec (4 * 2 ^ (k - 2)) 0); [lia|].
  generalize dependent (2 ^ (k - 2)). intros m _ Hm _.
  destruct (Z.ltb_spec ((3 * 2 ^ 52 + 1) * (4 * m)) (2 ^ 54 * (count t + 1)));
    destruct (Z.ltb_spec (3 * (4 * m)) (4 * (count t + 1))); try done; lia.
Qed.

(** On the sample points the integer form of the test is the binary64
    computation. *)
Lemma load_exceeded_is_binary64 :
  Forall (fun p => load_exceeded (mkDB [] (snd p) (fst p))
                   = load_exceeded_binary64 (mkDB [] (snd p) (fst p)))
         load_test_points.
Proof. repeat constructor. Qed.

(** From [2^53] on the conversion of [count + 1] rounds, and the test can
    miss a load above 3/4. *)
Lemma load_exceeded_rounds :
  load_exceeded (mkDB [] (2 ^ 54) (3 * 2 ^ 52)) = false /\
  3 * 2 ^ 54 < 4 * (3 * 2 ^ 52 + 1).
Proof. split; [reflexivity | lia]. Qed.

(** ** The allocator *)

Lemma dup_str_Some s h d h' : dup_str s h = (Some d, h') -> d = s.
Proof.
  unfold dup_str, bind, ret. destruct (malloc _ h) as [[] ?]; congruence.
Qed.

Lemma calloc_ok nmemb size h h' :
  calloc nmemb size h = (true, h') -> nmemb * size <= SIZE_MAX.
Proof.
  unfold calloc. destruct (Z.ltb_spec SIZE_MAX (nmemb * size)); [|lia].
  unfold ret. congruence.
Qed.

(** ** Chains *)

Lemma strcmp0_true a b : strcmp0 a b = true <-> a = b.
Proof. apply String.eqb_eq. Qed.

Lemma strcmp0_false a b : strcmp0 a b = false <-> a <> b.
Proof. apply String.eqb_neq. Qed.

Lemma strcmp0_refl a : strcmp0 a a = true.
Proof. by apply strcmp0_true. Qed.

Lemma chain_get_None e k : chain_get e k = None <-> k ∉ key <$> e.
Proof.
  induction e as [|x e IH]; cbn.
  - split; [intros _; apply not_elem_of_nil | done].
  - rewrite not_elem_of_cons. destruct (strcmp0 (key x) k) eqn:E.
    + apply strcmp0_true in E. split; [done | intros [? _]; congruence].
    + apply strcmp0_false in E. rewrite IH. split; [split; [congruence|done] | tauto].
Qed.

(** With pairwise distinct keys every entry is the one [chain_get] finds. *)
Lemma chain_get_elem e x :
  NoDup (key <$> e) -> x ∈ e -> chain_get e (key x) = Some (value x).
Proof.
  induction e as [|y e IH]; cbn; intros Hnd Hx.
  - by apply elem_of_nil in Hx.
  - apply NoDup_cons in Hnd as [Hy Hnd].
    apply elem_of_cons in Hx as [->|Hx]; [by rewrite strcmp0_refl|].
    destruct (strcmp0 (key y) (key x)) eqn:E; [|by apply IH].
    apply strcmp0_true in E. exfalso. apply Hy. rewrite E.
    by apply list_elem_of_fmap_2.
Qed.

Lemma with_value_key k v x : key (with_value k v x) = key x.
Proof. unfold with_value. by destruct (strcmp0 (key x) k). Qed.

Lemma with_value_absent k v (e : chain) :
  k ∉ key <$> e -> with_value k v <$> e = e.
Proof.
  induction e as [|x e IH]; cbn; [done|].
  rewrite not_elem_of_cons. intros [Hx He].
  rewrite IH by done. unfold with_value.
  destruct (strcmp0 (key x) k) eqn:E; [|done].
  apply strcmp0_true in E. congruence.
Qed.

Lemma update_walk_absent_inv e k v h h' :
  update_walk e k v h = (walk_absent, h') -> (k ∉ key <$> e) /\ h' = h.
Proof.
  revert h h'. induction e as [|x e IH]; cbn; intros h h'.
  - unfold ret. intros [= <-]. split; [apply not_elem_of_nil | done].
  - destruct (strcmp0 (key x) k) eqn:E.
    + unfold bind, ret. destruct (dup_str v h) as [[nv|] h1]; congruence.
    + unfold bind, ret. destruct (update_walk e k v h) as [[c| |] h1] eqn:Hw;
        try congruence.
      intros [= <-]. destruct (IH _ _ Hw) as [He ->].
      apply strcmp0_false in E. split; [|done].
      rewrite not_elem_of_cons. split; [congruence | done].
Qed.

Lemma update_walk_updated_inv e k v h c h' :
  update_walk e k v h = (walk_updated c, h') ->
  k ∈ (key <$> e) /\ (key <$> c) = (key <$> e) /\ chain_get c k = Some v /\
  (NoDup (key <$> e) -> c = with_value k v <$> e).
Proof.
  revert h h' c. induction e as [|x e IH]; cbn; intros h h' c.
  - unfold ret. congruence.
  - destruct (strcmp0 (key x) k) eqn:E.
    + unfold bind, ret.
      destruct (dup_str v h) as [[nv|] h1] eqn:Hd; [|congruence].
      apply dup_str_Some in Hd as ->. intros [= <- <-].
      pose proof E as Ek. apply strcmp0_true in Ek.
      split; [rewrite <- Ek; left|]. split; [done|].
      split; [cbn; by rewrite E|].
      intros Hnd. apply NoDup_cons in Hnd as [Hx _].
      unfold with_value at 1. rewrite E. f_equal.
      symmetry. apply with_value_absent. congruence.
    + unfold bind, ret. destruct (update_walk e k v h) as [[c'| |] h1] eqn:Hw;
        try congruence.
      intros [= <- <-]. destruct (IH _ _ _ Hw) as (Hin & Hk & Hg & Hc).
      split; [by right|]. split; [cbn; by rewrite Hk|].
      split; [cbn; by rewrite E|].
      intros Hnd. apply NoDup_cons in Hnd as [_ Hnd].
      unfold with_value at 1. rewrite E. f_equal. by apply Hc.
Qed.

(** With no allocation failure the loop updates or reaches the end. *)
Lemma update_walk_no_failure e k v :
  (exists c, update_walk e k v [] = (walk_updated c, [])) \/
  update_walk e k v [] = (walk_absent, []).
Proof.
  induction e as [|x e IH]; cbn; [by right|].
  destruct (strcmp0 (key x) k); [left; by eexists|].
  unfold bind, ret. destruct IH as [[c ->]| ->]; [left; by eexists | by right].
Qed.

Lemma chain_unlink_None e k : chain_unlink e k = None <-> k ∉ key <$> e.
Proof.
  induction e as [|x e IH]; cbn.
  - split; [intros _; apply not_elem_of_nil | done].
  - rewrite not_elem_of_cons. destruct (strcmp0 (key x) k) eqn:E.
    + apply strcmp0_true in E. split; [done | intros [? _]; congruence].
    + apply strcmp0_false in E. rewrite <- IH.
      destruct (chain_unlink e k); cbn; split; try done; try tauto.
      intros [_ ?]; done.
Qed.

Lemma chain_unlink_Some e k c :
  chain_unlink e k = Some c -> exists x, key x = k /\ e ≡ₚ x :: c.
Proof.
  revert c. induction e as [|x e IH]; cbn; intros c; [done|].
  destruct (strcmp0 (key x) k) eqn:E.
  - apply strcmp0_true in E. intros [= <-]. by exists x.
  - destruct (chain_unlink e k) as [c'|]; cbn; [|done].
    intros [= <-]. destruct (IH c' eq_refl) as (y & Hy & Hp).
    exists y. split; [done|]. rewrite Hp. apply perm_swap.
Qed.

(** ** Bucket arrays *)

Lemma bucket_at_lookup (bs : list chain) i c :
  bs !! i = Some c -> bucket_at bs (Z.of_nat i) = c.
Proof. unfold bucket_at. rewrite Nat2Z.id. by intros ->. Qed.

Lemma bucket_at_in_range (bs : list chain) idx :
  0 <= idx < Z.of_nat (length bs) ->
  bs !! Z.to_nat idx = Some (bucket_at bs idx).
Proof.
  intros Hidx. unfold bucket_at.
  destruct (lookup_lt_is_Some_2 bs (Z.to_nat idx)) as [c ->]; [lia | done].
Qed.

Lemma concat_middle (bs : list chain) i c :
  bs !! i = Some c ->
  concat bs = concat (take i bs) ++ c ++ concat (drop (S i) bs).
Proof.
  intros H. rewrite <- (take_drop_middle bs i c H) at 1.
  by rewrite concat_app.
Qed.

Lemma concat_insert (bs : list chain) i c c' :
  bs !! i = Some c ->
  concat (<[i:=c']> bs) = concat (take i bs) ++ c' ++ concat (drop (S i) bs).
Proof.
  intros H. rewrite insert_take_drop by (by eapply lookup_lt_Some).
  by rewrite concat_app.
Qed.

Lemma concat_insert_cons (bs : list chain) i c x :
  bs !! i = Some c -> concat (<[i:=x :: c]> bs) ≡ₚ x :: concat bs.
Proof.
  intros H. rewrite (concat_insert bs i c) by done.
  rewrite (concat_middle bs i c) by done.
  cbn. symmetry. apply Permutation_middle.
Qed.

Lemma elem_of_concat_lookup (bs : list chain) x :
  x ∈ concat bs <-> exists i c, bs !! i = Some c /\ x ∈ c.
Proof.
  rewrite list_elem_of_In, in_concat. split.
  - intros (c & Hc & Hx). apply list_elem_of_In, list_elem_of_lookup in Hc as [i Hi].
    exists i, c. by rewrite list_elem_of_In.
  - intros (i & c & Hi & Hx). exists c. rewrite <- !list_elem_of_In.
    split; [by eapply list_elem_of_lookup_2 | done].
Qed.

Lemma NoDup_chain (bs : list chain) i c :
  NoDup (key <$> concat bs) -> bs !! i = Some c -> NoDup (key <$> c).
Proof.
  intros Hnd Hi. rewrite (concat_middle bs i c Hi), !fmap_app in Hnd.
  apply NoDup_app in Hnd as (_ & _ & Hnd). by apply NoDup_app in Hnd as (? & _).
Qed.

Section Homed.
Variables (cap k : Z) (bs : list chain).
Hypothesis Hk : 0 <= k <= 63.
Hypothesis Hcap : cap = 2 ^ k.
Hypothesis Hlen : Z.of_nat (length bs) = cap.
Hypothesis Hhome : homed cap bs.

Lemma bucket_index_in_range h : 0 <= bucket_index h cap < Z.of_nat (length bs).
Proof. rewrite Hlen, Hcap. by apply bucket_index_range. Qed.

Lemma home_lookup s :
  bs !! Z.to_nat (bucket_index (fnv1a s) cap)
  = Some (bucket_at bs (bucket_index (fnv1a s) cap)).
Proof. apply bucket_at_in_range, bucket_index_in_range. Qed.

(** An entry of the table is in the chain its key selects. *)
Lemma home_elem x :
  x ∈ concat bs -> x ∈ bucket_at bs (bucket_index (fnv1a (key x)) cap).
Proof.
  intros (i & c & Hi & Hx)%elem_of_concat_lookup.
  rewrite (Hhome i c x Hi Hx). by rewrite (bucket_at_lookup bs i c).
Qed.

Lemma home_key s :
  s ∈ key <$> concat bs <->
  s ∈ key <$> bucket_at bs (bucket_index (fnv1a s) cap).
Proof.
  rewrite !list_elem_of_fmap. split.
  - intros (x & -> & Hx). exists x. split; [done | by apply home_elem].
  - intros (x & -> & Hx). exists x. split; [done|].
    apply elem_of_concat_lookup. eexists _, _. split; [apply home_lookup | done].
Qed.

(** Replacing the chain of bucket [i] by a chain of entries whose keys
    hash to [i] keeps every entry at home. *)
Lemma homed_insert i c :
  (forall x, x ∈ c -> bucket_index (fnv1a (key x)) cap = Z.of_nat i) ->
  homed cap (<[i:=c]> bs).
Proof.
  intros Hc j c' x Hj Hx. destruct (decide (i = j)) as [<-|Hne].
  - assert (i < length bs)%nat as Hi.
    { apply lookup_lt_Some in Hj. by rewrite length_insert in Hj. }
    rewrite list_lookup_insert_eq in Hj by done.
    injection Hj as <-. by apply Hc.
  - rewrite list_lookup_insert_ne in Hj by done. by eapply Hhome.
Qed.
End Homed.

(** ** The table invariant *)

Lemma homed_replicate cap n : homed cap (replicate n []).
Proof.
  intros i c x Hi Hx. apply lookup_replicate in Hi as [-> _].
  by apply elem_of_nil in Hx.
Qed.

Lemma concat_replicate_nil {A} n : concat (replicate n (@nil A)) = [].
Proof. induction n; cbn; done. Qed.

Lemma db_create_Some h t h' :
  db_create h = (Some t, h') ->
  t = mkDB (replicate (Z.to_nat INITIAL_CAPACITY) []) INITIAL_CAPACITY 0.
Proof.
  unfold db_create, bind, ret.
  destruct (malloc sizeof_SimpleDB h) as [[] h1]; cbn; [|congruence].
  destruct (calloc INITIAL_CAPACITY sizeof_ptr h1) as [[] h2]; cbn; congruence.
Qed.

Lemma valid_create h t h' : db_create h = (Some t, h') -> valid t.
Proof.
  intros ->%db_create_Some. split; cbn.
  - exists 6. by split.
  - by rewrite length_replicate.
  - apply homed_replicate.
  - unfold stored_keys, entries; cbn [buckets].
    rewrite concat_replicate_nil. constructor.
  - unfold entries; cbn [buckets]. by rewrite concat_replicate_nil.
  - done.
Qed.

Section ValidTable.
Variable t : SimpleDB.
Hypothesis Hv : valid t.

Lemma valid_capacity_pos : 64 <= capacity t <= 2 ^ 60.
Proof.
  destruct (valid_capacity t Hv) as (k & Hk & ->).
  split.
  - change 64 with (2 ^ 6). apply Z.pow_le_mono_r; lia.
  - apply Z.pow_le_mono_r; lia.
Qed.

Lemma valid_count_nonneg : 0 <= count t.
Proof. rewrite (valid_count t Hv). lia. Qed.

Lemma valid_take_buckets : take (Z.to_nat (capacity t)) (buckets t) = buckets t.
Proof. apply take_ge. rewrite <- (valid_length t Hv). lia. Qed.

Lemma valid_home_lookup s :
  buckets t !! Z.to_nat (bucket_index (fnv1a s) (capacity t))
  = Some (bucket_at (buckets t) (bucket_index (fnv1a s) (capacity t))).
Proof.
  destruct (valid_capacity t Hv) as (k & Hk & Hcap).
  apply (home_lookup (capacity t) k); [lia | done | apply Hv].
Qed.

Lemma valid_home_key s :
  s ∈ stored_keys t <->
  s ∈ key <$> bucket_at (buckets t) (bucket_index (fnv1a s) (capacity t)).
Proof.
  destruct (valid_capacity t Hv) as (k & Hk & Hcap).
  apply (home_key (capacity t) k); [lia | done | apply Hv | apply Hv].
Qed.

Lemma valid_home_distinct s :
  NoDup (key <$> bucket_at (buckets t) (bucket_index (fnv1a s) (capacity t))).
Proof.
  eapply NoDup_chain; [apply (valid_distinct t Hv) | apply valid_home_lookup].
Qed.

Lemma db_get_None s :
  db_get (Some t) (Some s) = None <-> s ∉ stored_keys t.
Proof. cbn. by rewrite chain_get_None, valid_home_key. Qed.

Lemma db_get_entry x :
  x ∈ entries t -> db_get (Some t) (Some (key x)) = Some (value x).
Proof.
  intros Hx. cbn. apply chain_get_elem; [apply valid_home_distinct|].
  apply (home_elem (capacity t)); [apply Hv | done].
Qed.
End ValidTable.

Lemma valid_clear t t' :
  valid t -> db_clear (Some t) = Some t' ->
  valid t' /\ count t' = 0 /\ capacity t' = capacity t /\ entries t' = [].
Proof.
  intros Hv [= <-].
  pose proof (valid_capacity_pos t Hv) as Hcap.
  rewrite wrap_small by (unfold sizeof_ptr, SIZE_MAX; lia).
  unfold sizeof_ptr. rewrite Z.div_mul by lia.
  rewrite drop_ge by (rewrite <- (valid_length t Hv); lia).
  rewrite app_nil_r.
  assert (entries (mkDB (replicate (Z.to_nat (capacity t)) []) (capacity t) 0)
          = []) as Hent
    by (unfold entries; cbn [buckets]; apply concat_replicate_nil).
  split; [|by cbn].
  split; cbn [buckets capacity count].
  - apply Hv.
  - rewrite length_replicate. lia.
  - apply homed_replicate.
  - unfold stored_keys. rewrite Hent. constructor.
  - by rewrite Hent.
  - done.
Qed.

(** ** Resize *)

Lemma relink_chain_concat new_cap (bs nb : list chain) :
  fold_left (relink_chain new_cap) bs nb
  = fold_left (relink new_cap) (concat bs) nb.
Proof.
  revert nb. induction bs as [|c bs IH]; intros nb; cbn; [done|].
  rewrite fold_left_app. apply IH.
Qed.

(** The relinking loop keeps the array length, puts every entry in the
    bucket of its key and loses or duplicates none. *)
Lemma relink_all new_cap k (es : list Entry) (nb : list chain) :
  0 <= k <= 63 -> new_cap = 2 ^ k ->
  Z.of_nat (length nb) = new_cap -> homed new_cap nb ->
  length (fold_left (relink new_cap) es nb) = length nb /\
  homed new_cap (fold_left (relink new_cap) es nb) /\
  concat (fold_left (relink new_cap) es nb) ≡ₚ es ++ concat nb.
Proof.
  intros Hk Hcap. revert nb.
  induction es as [|x es IH]; intros nb Hlen Hh; cbn [fold_left]; [done|].
  set (idx := bucket_index (fnv1a (key x)) new_cap).
  assert (nb !! Z.to_nat idx = Some (bucket_at nb idx)) as Hl
    by (by apply (home_lookup new_cap k nb)).
  assert (0 <= idx) as Hidx by (by apply (bucket_index_in_range new_cap k nb)).
  assert (length (relink new_cap nb x) = length nb) as Hlen'
    by (unfold relink, bucket_store; apply length_insert).
  destruct (IH (relink new_cap nb x)) as (HL & HH & HP).
  - by rewrite Hlen'.
  - unfold relink, bucket_store. fold idx. apply homed_insert; [done|].
    intros y [->|Hy]%elem_of_cons; rewrite Z2Nat.id by done; [done|].
    rewrite (Hh _ _ _ Hl Hy). by rewrite Z2Nat.id.
  - split; [congruence|]. split; [done|].
    rewrite HP. unfold relink, bucket_store. fold idx.
    rewrite concat_insert_cons by done. cbn. symmetry. apply Permutation_middle.
Qed.

Lemma pow2_calloc_bound k :
  0 <= k -> 2 ^ k * sizeof_ptr <= SIZE_MAX -> k <= 60.
Proof.
  intros Hk Hb. destruct (Z.le_gt_cases k 60) as [|Hgt]; [done|].
  assert (2 ^ 61 <= 2 ^ k) by (apply Z.pow_le_mono_r; lia).
  unfold sizeof_ptr, SIZE_MAX in Hb. lia.
Qed.

Lemma rehash_fails t new_cap h h' :
  calloc new_cap sizeof_ptr h = (false, h') ->
  rehash t new_cap h = ((false, t), h').
Proof. intros Hc. unfold rehash, bind, ret. by rewrite Hc. Qed.

Lemma rehash_true t new_cap h t' h' :
  rehash t new_cap h = ((true, t'), h') ->
  calloc new_cap sizeof_ptr h = (true, h') /\
  t' = mkDB (fold_left (relink_chain new_cap)
                       (take (Z.to_nat (capacity t)) (buckets t))
                       (replicate (Z.to_nat new_cap) []))
            new_cap (count t).
Proof.
  unfold rehash, bind, ret.
  destruct (calloc new_cap sizeof_ptr h) as [[] h1]; cbn; [|congruence].
  by intros [= <- <-].
Qed.

Lemma rehash_valid t k h t' h' :
  valid t -> 0 <= k ->
  rehash t (2 ^ k) h = ((true, t'), h') ->
  capacity t <= 2 ^ k ->
  valid t' /\ capacity t' = 2 ^ k /\ count t' = count t /\
  entries t' ≡ₚ entries t.
Proof.
  intros Hv Hk0 [Hc ->]%rehash_true Hle.
  apply calloc_ok, pow2_calloc_bound in Hc; [|done].
  rewrite (valid_take_buckets t Hv), relink_chain_concat.
  pose proof (valid_capacity_pos t Hv) as Hcap.
  assert (6 <= k) as Hk6.
  { destruct (Z.le_gt_cases 6 k) as [|Hlt]; [done|].
    assert (2 ^ k <= 2 ^ 5) by (apply Z.pow_le_mono_r; lia). lia. }
  destruct (relink_all (2 ^ k) k (concat (buckets t))
              (replicate (Z.to_nat (2 ^ k)) [])) as (HL & HH & HP);
    [lia | done | | apply homed_replicate |].
  { rewrite length_replicate. lia. }
  rewrite concat_replicate_nil, app_nil_r in HP.
  rewrite length_replicate in HL.
  split; [|by cbn].
  split; cbn [buckets capacity count].
  - exists k. split; [lia | done].
  - rewrite HL. lia.
  - done.
  - unfold stored_keys, entries; cbn [buckets]. rewrite HP. apply Hv.
  - unfold entries; cbn [buckets]. rewrite HP. apply Hv.
  - apply Hv.
Qed.

(** ** Insert and update *)

Lemma bucket_at_store (bs : list chain) idx c :
  0 <= idx < Z.of_nat (length bs) -> bucket_at (bucket_store bs idx c) idx = c.
Proof.
  intros Hidx. unfold bucket_at, bucket_store.
  rewrite list_lookup_insert_eq by lia. done.
Qed.

Lemma concat_fmap {A B} (f : A -> B) (ls : list (list A)) :
  concat (fmap (M:=list) f <$> ls) = f <$> concat ls.
Proof.
  induction ls as [|l ls IH]; cbn; [done|]. by rewrite IH, fmap_app.
Qed.

Lemma with_value_keys s v (e : list Entry) :
  key <$> (with_value s v <$> e) = key <$> e.
Proof.
  rewrite <- list_fmap_compose. apply list_fmap_ext.
  intros i x _. apply with_value_key.
Qed.

Lemma chain_get_with_value s v (e : chain) :
  s ∈ key <$> e -> chain_get (with_value s v <$> e) s = Some v.
Proof.
  induction e as [|x e IH]; cbn.
  - by intros ?%elem_of_nil.
  - intros Hs. rewrite with_value_key. unfold with_value at 1.
    destruct (strcmp0 (key x) s) eqn:E; [done|].
    apply IH. apply elem_of_cons in Hs as [->|]; [|done].
    by rewrite strcmp0_refl in E.
Qed.

Section SetInBucket.
Variables (t : SimpleDB) (s v : cstr).
Hypothesis Hv : valid t.

Local Abbreviation idx := (bucket_index (fnv1a s) (capacity t)).

Lemma store_with_value :
  bucket_store (buckets t) idx (with_value s v <$> bucket_at (buckets t) idx)
  = fmap (M:=list) (with_value s v) <$> buckets t.
Proof.
  pose proof (valid_home_lookup t Hv s) as Hl.
  apply list_eq. intros i. unfold bucket_store. rewrite list_lookup_fmap.
  destruct (decide (Z.to_nat idx = i)) as [<-|Hne].
  - rewrite list_lookup_insert_eq by (by eapply lookup_lt_Some).
    by rewrite Hl.
  - rewrite list_lookup_insert_ne by done.
    destruct (buckets t !! i) as [c|] eqn:Hi; cbn; [|done].
    f_equal. symmetry. apply with_value_absent.
    intros (x & -> & Hx)%list_elem_of_fmap. apply Hne.
    rewrite (valid_homed t Hv i c x Hi Hx). lia.
Qed.

Lemma set_in_bucket_true h t' h' :
  set_in_bucket t s v h = ((true, t'), h') ->
  (s ∈ stored_keys t /\ t' = updated t s v) \/
  ((s ∉ stored_keys t) /\ t' = inserted t s v).
Proof.
  unfold set_in_bucket, bind, ret.
  destruct (update_walk (bucket_at (buckets t) idx) s v h) as [[c| |] h1] eqn:Hw.
  - intros [= <- <-]. left.
    apply update_walk_updated_inv in Hw as (Hin & _ & _ & Hc).
    split; [by apply (valid_home_key t Hv)|].
    rewrite Hc by apply (valid_home_distinct t Hv s).
    unfold updated. by rewrite <- store_with_value.
  - congruence.
  - apply update_walk_absent_inv in Hw as [Hs ->].
    destruct (malloc sizeof_Entry h) as [[] h2]; cbn; [|congruence].
    destruct (dup_str s h2) as [[nk|] h3] eqn:Hk; [|congruence].
    destruct (dup_str v h3) as [[nv|] h4] eqn:Hval; [|congruence].
    apply dup_str_Some in Hk as ->. apply dup_str_Some in Hval as ->.
    intros [= <- <-]. right.
    split; [by rewrite (valid_home_key t Hv)|done].
Qed.

Lemma set_in_bucket_false h t' h' :
  set_in_bucket t s v h = ((false, t'), h') -> t' = t.
Proof.
  unfold set_in_bucket, bind, ret.
  destruct (update_walk (bucket_at (buckets t) idx) s v h) as [[c| |] h1];
    [congruence | congruence |].
  destruct (malloc sizeof_Entry h1) as [[] h2]; cbn; [|congruence].
  destruct (dup_str s h2) as [[nk|] h3]; [|congruence].
  destruct (dup_str v h3) as [[nv|] h4]; congruence.
Qed.

Lemma valid_updated : valid (updated t s v).
Proof.
  unfold updated. split; cbn [buckets capacity count].
  - apply Hv.
  - rewrite length_fmap. apply Hv.
  - intros i c x (c0 & -> & Hi)%list_lookup_fmap_Some
                 (x0 & -> & Hx)%list_elem_of_fmap.
    rewrite with_value_key. by apply (valid_homed t Hv i c0).
  - unfold stored_keys, entries; cbn [buckets].
    rewrite concat_fmap, with_value_keys. apply Hv.
  - unfold entries; cbn [buckets].
    rewrite concat_fmap, length_fmap. apply Hv.
  - apply Hv.
Qed.

Lemma updated_get : s ∈ stored_keys t -> db_get (Some (updated t s v)) (Some s) = Some v.
Proof.
  intros Hs. cbn. rewrite <- store_with_value.
  rewrite bucket_at_store.
  - apply chain_get_with_value. by apply (valid_home_key t Hv).
  - pose proof (valid_home_lookup t Hv s) as Hl%lookup_lt_Some.
    destruct (valid_capacity t Hv) as (k & Hk & Hcap).
    pose proof (bucket_index_range (fnv1a s) k ltac:(lia)) as Hr.
    rewrite <- Hcap in Hr. lia.
Qed.

Lemma updated_entries : entries (updated t s v) = with_value s v <$> entries t.
Proof. unfold entries; cbn. apply concat_fmap. Qed.

Lemma updated_keys : stored_keys (updated t s v) = stored_keys t.
Proof. unfold stored_keys. by rewrite updated_entries, with_value_keys. Qed.

Lemma inserted_entries : entries (inserted t s v) ≡ₚ mkEntry s v :: entries t.
Proof.
  unfold entries, inserted, bucket_store; cbn [buckets].
  apply concat_insert_cons, (valid_home_lookup t Hv).
Qed.

Lemma inserted_keys : stored_keys (inserted t s v) ≡ₚ s :: stored_keys t.
Proof. unfold stored_keys. by rewrite inserted_entries. Qed.

Lemma inserted_get : db_get (Some (inserted t s v)) (Some s) = Some v.
Proof.
  cbn. rewrite bucket_at_store.
  - cbn. by rewrite strcmp0_refl.
  - pose proof (valid_home_lookup t Hv s) as Hl%lookup_lt_Some.
    destruct (valid_capacity t Hv) as (k & Hk & Hcap).
    pose proof (bucket_index_range (fnv1a s) k ltac:(lia)) as Hr.
    rewrite <- Hcap in Hr. lia.
Qed.

Lemma valid_inserted :
  s ∉ stored_keys t -> count t < SIZE_MAX ->
  valid (inserted t s v) /\ count (inserted t s v) = count t + 1.
Proof.
  intros Hs Hc. pose proof (valid_count_nonneg t Hv) as H0.
  assert (wrap (count t + 1) = count t + 1) as Hw by (apply wrap_small; lia).
  pose proof (valid_home_lookup t Hv s) as Hl.
  split; [|done].
  split; cbn [inserted buckets capacity count].
  - apply Hv.
  - unfold bucket_store. rewrite length_insert. apply Hv.
  - unfold bucket_store. apply homed_insert; [apply Hv|].
    assert (0 <= idx).
    { destruct (valid_capacity t Hv) as (k & Hk & Hcap).
      rewrite Hcap. apply bucket_index_range. lia. }
    intros y [->|Hy]%elem_of_cons; cbn [key];
      [lia | rewrite (valid_homed t Hv _ _ _ Hl Hy); lia].
  - rewrite inserted_keys. apply NoDup_cons. split; [done | apply Hv].
  - rewrite inserted_entries, Hw. cbn [length]. rewrite (valid_count t Hv). lia.
  - rewrite Hw. lia.
Qed.
End SetInBucket.

(** ** [db_set] *)

Lemma db_set_steps t s v h :
  db_set (Some t) (Some s) (Some v) h =
  let (r, h1) := resize_if_exceeded t h in
  if negb (fst r) then ((false, Some (snd r)), h1)
  else let (r', h2) := set_in_bucket (snd r) s v h1 in
       ((fst r', Some (snd r')), h2).
Proof.
  unfold db_set, bind, ret.
  destruct (resize_if_exceeded t h) as [[[] d] h1]; cbn; [|done].
  by destruct (set_in_bucket d s v h1) as [[] ?].
Qed.

Lemma db_set_true t s v h t' h' :
  db_set (Some t) (Some s) (Some v) h = ((true, Some t'), h') ->
  exists tr h1,
    resize_if_exceeded t h = ((true, tr), h1) /\
    set_in_bucket tr s v h1 = ((true, t'), h').
Proof.
  rewrite db_set_steps.
  destruct (resize_if_exceeded t h) as [[[] d] h1]; cbn;
    [|congruence].
  destruct (set_in_bucket d s v h1) as [[ok d'] h2] eqn:Hs; cbn.
  intros [= -> <- <-]. by exists d, h1.
Qed.

Lemma resize_valid t h tr h1 :
  valid t ->
  resize_if_exceeded t h = ((true, tr), h1) ->
  valid tr /\ count tr = count t /\ entries tr ≡ₚ entries t /\
  capacity tr = (if load_exceeded t then 2 * capacity t else capacity t) /\
  (load_exceeded t = false -> tr = t).
Proof.
  intros Hv. unfold resize_if_exceeded. destruct (load_exceeded t).
  - destruct (valid_capacity t Hv) as (k & Hk & Hcap).
    assert (wrap (capacity t * 2) = 2 ^ (k + 1)) as ->.
    { rewrite Hcap, pow2_double by lia. apply wrap_small.
      pose proof (pow2_le (k + 1) 61 ltac:(lia)). unfold SIZE_MAX. lia. }
    intros Hr.
    assert (capacity t <= 2 ^ (k + 1)) as Hle
      by (rewrite Hcap; apply Z.pow_le_mono_r; lia).
    destruct (rehash_valid t (k + 1) h tr h1 Hv ltac:(lia) Hr Hle)
      as (? & Hc & ? & ?).
    do 3 (split; [done|]). split; [|done].
    rewrite Hc, Hcap, <- pow2_double by lia. lia.
  - unfold ret. intros [= <- <-]. by do 4 (split; [done|]).
Qed.

(** A successful [db_set], step by step: the table [tr] after the resize
    step, then the update or the insertion in [tr]. *)
Lemma db_set_cases t s v h t' h' :
  valid t ->
  db_set (Some t) (Some s) (Some v) h = ((true, Some t'), h') ->
  exists tr,
    valid tr /\ count tr = count t /\ entries tr ≡ₚ entries t /\
    capacity tr = (if load_exceeded t then 2 * capacity t else capacity t) /\
    (load_exceeded t = false -> tr = t) /\
    ((s ∈ stored_keys t /\ t' = updated tr s v) \/
     ((s ∉ stored_keys t) /\ t' = inserted tr s v)).
Proof.
  intros Hv (tr & h1 & Hr & Hs)%db_set_true.
  destruct (resize_valid t h tr h1 Hv Hr) as (Hvr & Hc & Hp & Hcap & Hsame).
  exists tr. repeat (split; [done|]).
  assert (stored_keys tr ≡ₚ stored_keys t) as Hkeys
    by (unfold stored_keys; by rewrite Hp).
  apply (set_in_bucket_true tr s v Hvr) in Hs as [[? ->]|[? ->]];
    [left | right]; by rewrite <- Hkeys.
Qed.

Lemma db_set_get t s v h t' h' :
  valid t ->
  db_set (Some t) (Some s) (Some v) h = ((true, Some t'), h') ->
  db_get (Some t') (Some s) = Some v.
Proof.
  intros Hv (tr & Hvr & _ & Hp & _ & _ & Hcase)%db_set_cases; [|done].
  assert (stored_keys tr ≡ₚ stored_keys t) as Hkeys
    by (unfold stored_keys; by rewrite Hp).
  destruct Hcase as [[Hs ->]|[_ ->]].
  - apply updated_get; [done | by rewrite Hkeys].
  - by apply inserted_get.
Qed.

(** [db_set] keeps the invariant, as long as [count] can be incremented. *)
Lemma db_set_valid t s v h t' h' :
  valid t -> count t < SIZE_MAX ->
  db_set (Some t) (Some s) (Some v) h = ((true, Some t'), h') ->
  valid t' /\
  capacity t' = (if load_exceeded t then 2 * capacity t else capacity t) /\
  ((s ∈ stored_keys t /\ count t' = count t /\
    stored_keys t' ≡ₚ stored_keys t) \/
   ((s ∉ stored_keys t) /\ count t' = count t + 1 /\
    stored_keys t' ≡ₚ s :: stored_keys t)).
Proof.
  intros Hv Hc (tr & Hvr & Hcnt & Hp & Hcap & _ & Hcase)%db_set_cases; [|done].
  assert (stored_keys tr ≡ₚ stored_keys t) as Hkeys
    by (unfold stored_keys; by rewrite Hp).
  destruct Hcase as [[Hs ->]|[Hs ->]].
  - split; [by apply valid_updated|]. split; [done|]. left.
    split; [done|]. split; [done|]. by rewrite updated_keys.
  - destruct (valid_inserted tr s v Hvr) as [Hvi Hci];
      [by rewrite Hkeys | lia |].
    split; [done|]. split; [done|]. right.
    split; [done|]. split; [lia|]. by rewrite inserted_keys, Hkeys.
Qed.

(** With no allocation failure [db_set] succeeds, short of the largest
    bucket array. *)
Lemma db_set_succeeds t s v :
  valid t -> capacity t < 2 ^ 60 ->
  exists t', db_set (Some t) (Some s) (Some v) [] = ((true, Some t'), []).
Proof.
  intros Hv Hcap. rewrite db_set_steps.
  assert (exists tr, resize_if_exceeded t [] = ((true, tr), [])) as [tr ->].
  { unfold resize_if_exceeded. destruct (load_exceeded t); [|by eexists].
    unfold rehash, bind, ret, calloc.
    pose proof (valid_capacity_pos t Hv).
    rewrite wrap_small by (unfold SIZE_MAX; lia).
    destruct (Z.ltb_spec SIZE_MAX (capacity t * 2 * sizeof_ptr)) as [Hlt|];
      [unfold SIZE_MAX, sizeof_ptr in Hlt; lia|].
    cbn. by eexists. }
  cbn [fst snd negb]. unfold set_in_bucket, bind, ret.
  destruct (update_walk_no_failure
              (bucket_at (buckets tr) (bucket_index (fnv1a s) (capacity tr)))
              s v) as [[c ->]| ->]; cbn; by eexists.
Qed.

(** ** Scenarios *)

Lemma valid_created : valid created.
Proof. by apply (valid_create [] created []). Qed.

Lemma set_all_table48 : set_all created (pairs 48) [] = (Some (table 48), []).
Proof. vm_compute. reflexivity. Qed.

Lemma set_all_table49 : set_all created (pairs 49) [] = (Some (table 49), []).
Proof. vm_compute. reflexivity. Qed.

Lemma set_all_reachable n t kvs h t' h' :
  set_reachable n t -> set_all t kvs h = (Some t', h') ->
  set_reachable (length kvs + n) t'.
Proof.
  revert n t h.
  induction kvs as [|[s v] kvs IH]; intros n t h Hr; cbn [set_all length].
  - unfold ret. by intros [= <- <-].
  - unfold bind.
    destruct (db_set (Some t) (Some s) (Some v) h) as [[[] [t1|]] h1] eqn:Hs;
      try (unfold ret; congruence).
    intros Hall. replace (S (length kvs) + n)%nat with (length kvs + S n)%nat by lia.
    eapply IH; [|done]. by eapply reach_set.
Qed.

Lemma set_reachable_valid n t :
  set_reachable n t -> Z.of_nat n < 2 ^ 53 ->
  valid t /\ count t <= Z.of_nat n /\ 4 * count t <= 3 * capacity t.
Proof.
  induction 1 as [h t h' Hc | n t s v h t' h' Hr IH Hs]; intros Hn.
  - split; [by eapply valid_create|].
    apply db_create_Some in Hc as ->. cbn. unfold INITIAL_CAPACITY. lia.
  - destruct IH as (Hv & Hcnt & Hload); [lia|].
    pose proof (valid_count_nonneg t Hv) as H0.
    destruct (valid_capacity t Hv) as (k & Hk & Hcap).
    pose proof (valid_capacity_pos t Hv) as Hpos.
    destruct (db_set_valid t s v h t' h' Hv) as (Hv' & Hcap' & Hcase);
      [unfold SIZE_MAX; lia | done |].
    rewrite (load_exceeded_exact t k) in Hcap' by lia.
    split; [done|].
    destruct (Z.ltb_spec (3 * capacity t) (4 * (count t + 1)));
      destruct Hcase as [(_ & -> & _)|(_ & -> & _)]; lia.
Qed.

Lemma valid_table n :
  set_all created (pairs n) [] = (Some (table n), []) -> (n <= 49)%nat ->
  valid (table n).
Proof.
  intros Hall Hn.
  apply (set_reachable_valid (length (pairs n) + 0) (table n)).
  - apply (set_all_reachable 0 created (pairs n) [] (table n) []); [|done].
    by apply (reach_create [] created []).
  - unfold pairs. rewrite length_fmap, length_take. lia.
Qed.

(** Below the threshold of 48 entries a run of insertions of new keys
    leaves the capacity at 64. *)
Lemma set_all_below_threshold kvs t h t' h' :
  valid t -> capacity t = 64 ->
  count t + Z.of_nat (length kvs) <= 48 ->
  NoDup (kvs.*1) -> (forall s, s ∈ kvs.*1 -> s ∉ stored_keys t) ->
  set_all t kvs h = (Some t', h') ->
  valid t' /\ capacity t' = 64 /\
  count t' = count t + Z.of_nat (length kvs) /\
  (forall s, s ∈ stored_keys t' <-> s ∈ kvs.*1 \/ s ∈ stored_keys t).
Proof.
  revert t h. induction kvs as [|[s v] kvs IH];
    intros t h Hv Hcap Hcnt Hnd Hnew; cbn [set_all].
  - unfold ret. intros [= <- <-]. do 2 (split; [done|]). split; [cbn; lia|].
    intros s. rewrite fmap_nil, elem_of_nil. tauto.
  - rewrite fmap_cons. rewrite fmap_cons in Hnd, Hnew.
    cbn [length fst] in *. unfold bind.
    destruct (db_set (Some t) (Some s) (Some v) h) as [[[] [t1|]] h1] eqn:Hs;
      try (unfold ret; congruence).
    pose proof (valid_count_nonneg t Hv) as H0.
    apply NoDup_cons in Hnd as [Hs_new Hnd].
    destruct (db_set_valid t s v h t1 h1 Hv) as (Hv1 & Hcap1 & Hcase);
      [unfold SIZE_MAX; lia | done |].
    rewrite (load_exceeded_exact t 6) in Hcap1 by (rewrite ?Hcap; lia).
    destruct (Z.ltb_spec (3 * capacity t) (4 * (count t + 1))); [lia|].
    destruct Hcase as [(Hin & _)|(_ & Hc1 & Hk1)].
    { exfalso. apply (Hnew s); [left | done]. }
    intros Hall.
    destruct (IH t1 h1 Hv1) as (Hv' & Hcap' & Hcnt' & Hkeys'); try done; try lia.
    + intros s' Hs'. rewrite Hk1, not_elem_of_cons. split.
      * intros ->. done.
      * apply Hnew. by right.
    + do 2 (split; [done|]). split; [lia|].
      intros s'. rewrite Hkeys', Hk1, !elem_of_cons. tauto.
Qed.

(** ** [db_delete] *)

Lemma chain_unlink_gone e k c :
  NoDup (key <$> e) -> chain_unlink e k = Some c ->
  (k ∉ key <$> c) /\ (forall x, x ∈ c -> x ∈ e).
Proof.
  intros Hnd (x & Hx & Hp)%chain_unlink_Some.
  rewrite Hp, fmap_cons, Hx in Hnd. apply NoDup_cons in Hnd as [Hk _].
  split; [done|]. intros y Hy. rewrite Hp. by right.
Qed.

Lemma db_delete_present t s c :
  valid t ->
  chain_unlink (bucket_at (buckets t) (bucket_index (fnv1a s) (capacity t))) s
  = Some c ->
  valid (unlinked t s c) /\
  count (unlinked t s c) = count t - 1 /\
  db_get (Some (unlinked t s c)) (Some s) = None.
Proof.
  intros Hv Hu.
  set (idx := bucket_index (fnv1a s) (capacity t)) in *.
  pose proof (valid_home_lookup t Hv s) as Hl. fold idx in Hl.
  pose proof (chain_unlink_gone _ _ _ (valid_home_distinct t Hv s) Hu)
    as [Hgone Hsub].
  fold idx in Hsub, Hgone.
  destruct (chain_unlink_Some _ _ _ Hu) as (x & Hx & Hp).
  assert (0 <= idx < Z.of_nat (length (buckets t))) as Hidx.
  { destruct (valid_capacity t Hv) as (k & Hk & Hcap).
    rewrite (valid_length t Hv). unfold idx. rewrite Hcap.
    apply bucket_index_range. lia. }
  assert (entries t ≡ₚ x :: entries (unlinked t s c)) as Hent.
  { unfold entries, unlinked, bucket_store; cbn [buckets]. fold idx.
    rewrite (concat_insert _ _ _ c Hl), (concat_middle _ _ _ Hl), Hp.
    cbn. symmetry. apply Permutation_middle. }
  assert (wrap (count t - 1) = count t - 1) as Hw.
  { apply wrap_small. pose proof (valid_count_size t Hv).
    rewrite (valid_count t Hv), Hent in *. cbn [length] in *. lia. }
  split; [|split].
  - split; cbn [unlinked buckets capacity count]; fold idx.
    + apply Hv.
    + unfold bucket_store. rewrite length_insert. apply Hv.
    + unfold bucket_store. apply homed_insert; [apply Hv|].
      intros y Hy. rewrite (valid_homed t Hv _ _ _ Hl (Hsub y Hy)). lia.
    + pose proof (valid_distinct t Hv) as Hnd. unfold stored_keys in *.
      rewrite Hent, fmap_cons in Hnd. by apply NoDup_cons in Hnd as [_ ?].
    + rewrite Hw, (valid_count t Hv), Hent. cbn [length]. lia.
    + rewrite Hw. pose proof (valid_count_size t Hv). lia.
  - done.
  - cbn. fold idx. rewrite bucket_at_store by done. by apply chain_get_None.
Qed.

(** ** [db_keys] *)

Lemma keys_chain_Some e arr h r h' :
  keys_chain e arr h = (Some r, h') -> r = arr ++ (key <$> e).
Proof.
  revert arr h. induction e as [|x e IH]; intros arr h; cbn; unfold bind, ret.
  - intros [= <- _]. by rewrite app_nil_r.
  - destruct (dup_str (key x) h) as [[d|] h1] eqn:Hd; [|congruence].
    apply dup_str_Some in Hd as ->. intros ->%IH.
    by rewrite <- app_assoc.
Qed.

Lemma keys_chain_no_failure e arr :
  keys_chain e arr [] = (Some (arr ++ (key <$> e)), []).
Proof.
  revert arr. induction e as [|x e IH]; intros arr; cbn; unfold bind, ret.
  - by rewrite app_nil_r.
  - cbn. rewrite IH. by rewrite <- app_assoc.
Qed.

Lemma keys_buckets_Some (bs : list chain) cnt arr h r h' :
  Z.of_nat (length arr + length (concat bs)) = cnt ->
  keys_buckets bs cnt arr h = (Some r, h') -> r = arr ++ (key <$> concat bs).
Proof.
  revert arr h. induction bs as [|e bs IH]; intros arr h Hcnt;
    cbn [keys_buckets concat]; unfold bind, ret.
  - intros [= <- _]. by rewrite app_nil_r.
  - cbn [concat] in Hcnt. rewrite length_app in Hcnt.
    destruct (Z.ltb_spec (Z.of_nat (length arr)) cnt) as [Hlt|Hge].
    + destruct (keys_chain e arr h) as [[arr'|] h1] eqn:Hk; [|congruence].
      apply keys_chain_Some in Hk as ->. intros ->%IH.
      * by rewrite fmap_app, app_assoc.
      * rewrite length_app, length_fmap. lia.
    + intros [= <- _].
      assert (e ++ concat bs = []) as -> by (apply nil_length_inv; rewrite length_app; lia).
      by rewrite app_nil_r.
Qed.

Lemma keys_buckets_no_failure (bs : list chain) cnt arr :
  Z.of_nat (length arr + length (concat bs)) = cnt ->
  keys_buckets bs cnt arr [] = (Some (arr ++ (key <$> concat bs)), []).
Proof.
  revert arr. induction bs as [|e bs IH]; intros arr Hcnt;
    cbn [keys_buckets concat]; unfold bind, ret.
  - by rewrite app_nil_r.
  - cbn [concat] in Hcnt. rewrite length_app in Hcnt.
    destruct (Z.ltb_spec (Z.of_nat (length arr)) cnt) as [Hlt|Hge].
    + rewrite keys_chain_no_failure, IH.
      * by rewrite fmap_app, app_assoc.
      * rewrite length_app, length_fmap. lia.
    + assert (e ++ concat bs = []) as -> by (apply nil_length_inv; rewrite length_app; lia).
      by rewrite app_nil_r.
Qed.

(** ** [db_stats] *)

Lemma chain_count_length (e : chain) n :
  0 <= n -> n + chain_length e <= SIZE_MAX ->
  chain_count e n = n + chain_length e.
Proof.
  unfold chain_length. revert n.
  induction e as [|x e IH]; intros n H0 Hb; cbn [chain_count length] in *.
  - lia.
  - rewrite wrap_small by lia. rewrite IH by lia. lia.
Qed.

Lemma nonempty_buckets_bounds (bs : list chain) :
  0 <= nonempty_buckets bs <= Z.of_nat (length bs).
Proof.
  induction bs as [|[|x c] bs IH]; cbn [nonempty_buckets length]; lia.
Qed.

Lemma sum_collisions_bounds (bs : list chain) :
  0 <= sum_collisions bs <= Z.of_nat (length (concat bs)).
Proof.
  induction bs as [|c bs IH]; cbn [sum_collisions concat]; [cbn; lia|].
  rewrite length_app. unfold chain_length. lia.
Qed.

Lemma longest_chain_bounds (bs : list chain) :
  0 <= longest_chain bs <= Z.of_nat (length (concat bs)) /\
  (0 < Z.of_nat (length (concat bs)) -> 1 <= longest_chain bs).
Proof.
  induction bs as [|c bs IH]; cbn [longest_chain concat]; [cbn; lia|].
  rewrite length_app. unfold chain_length. lia.
Qed.

Lemma stats_fold (bs : list chain) s0 :
  0 <= total_collisions s0 -> 0 <= used_buckets s0 ->
  0 <= max_chain_length s0 ->
  total_collisions s0 + Z.of_nat (length (concat bs)) <= SIZE_MAX ->
  used_buckets s0 + Z.of_nat (length bs) <= SIZE_MAX ->
  fold_left stats_bucket bs s0
  = mkStats (total_entries s0)
            (total_collisions s0 + sum_collisions bs)
            (Z.max (max_chain_length s0) (longest_chain bs))
            (used_buckets s0 + nonempty_buckets bs).
Proof.
  revert s0. induction bs as [|c bs IH]; intros [te tc mx ub];
    cbn [total_entries total_collisions max_chain_length used_buckets];
    intros Htc Hub Hmx Hb1 Hb2.
  - cbn. f_equal; lia.
  - cbn [fold_left concat length] in *. rewrite length_app in Hb1.
    pose proof (longest_chain_bounds bs) as [Hl _].
    pose proof (sum_collisions_bounds bs) as Hs.
    destruct c as [|x c].
    + cbn [stats_bucket]. rewrite IH; cbn; try lia.
      unfold chain_length. cbn [length]. f_equal; lia.
    + unfold stats_bucket.
      cbn [total_entries total_collisions max_chain_length used_buckets].
      rewrite chain_count_length by (unfold chain_length; lia).
      set (n := chain_length (x :: c)) in *.
      assert (1 <= n) as Hn by (unfold n, chain_length; cbn [length]; lia).
      assert (n = Z.of_nat (length (x :: c))) as Hlen by done.
      rewrite (wrap_small (ub + 1)) by lia.
      destruct (Z.ltb_spec 1 (0 + n));
        cbn [total_entries total_collisions max_chain_length used_buckets];
        [rewrite (wrap_small (tc + (0 + n - 1))) by lia|];
        (destruct (Z.ltb_spec mx (0 + n));
         rewrite IH;
         cbn [total_entries total_collisions max_chain_length used_buckets
              sum_collisions longest_chain nonempty_buckets];
         fold n; try lia; f_equal; lia).
Qed.

(** * The claims *)

(** C1. For every table, key [s] and value [v]: when [db_set] of [s] to [v]
    succeeds, an immediately following [db_get] of [s] returns [v] and
    [db_exists] of [s] is true. *)
Theorem set_then_get t s v h t' h' :
  valid t ->
  db_set (Some t) (Some s) (Some v) h = ((true, Some t'), h') ->
  db_get (Some t') (Some s) = Some v /\
  db_exists (Some t') (Some s) = true.
Proof.
  intros Hv Hs. pose proof (db_set_get t s v h t' h' Hv Hs) as Hg.
  split; [done|]. unfold db_exists. by rewrite Hg.
Qed.

Lemma set_then_get_witness :
  db_get (Some (table 1)) (Some "k1") = Some "v" /\
  db_exists (Some (table 1)) (Some "k1") = true.
Proof.
  apply (set_then_get created "k1" "v" [] (table 1) []).
  - apply valid_created.
  - reflexivity.
Defined.

(** C2, as the code has it.  For every table and key [s] already present,
    a successful [db_set] of [s] to [v] replaces the value of the entry
    for [s] and leaves [count] and the stored keys as they are.  The
    load-factor test runs before the chain is searched: when
    [(count + 1) / capacity] does not exceed the maximum, capacity, key
    storage and the position of every entry are unchanged; when it does,
    the capacity doubles as for an insertion. *)
Theorem update_existing t s v h t' h' :
  valid t -> s ∈ stored_keys t ->
  db_set (Some t) (Some s) (Some v) h = ((true, Some t'), h') ->
  db_get (Some t') (Some s) = Some v /\
  count t' = count t /\
  stored_keys t' ≡ₚ stored_keys t /\
  (load_exceeded t = false ->
   capacity t' = capacity t /\
   buckets t' = (fmap (M:=list) (with_value s v) <$> buckets t)) /\
  (load_exceeded t = true -> capacity t' = 2 * capacity t).
Proof.
  intros Hv Hin Hs. split; [by eapply db_set_get|].
  apply db_set_cases in Hs as (tr & Hvr & Hc & Hp & Hcap & Hsame & Hcase);
    [|done].
  destruct Hcase as [[_ ->]|[? _]]; [|done].
  split; [done|]. split.
  { rewrite updated_keys. unfold stored_keys. by rewrite Hp. }
  split.
  - intros Hle. rewrite (Hsame Hle). by split.
  - intros Hle. by rewrite Hle in Hcap.
Qed.

Lemma update_existing_witness :
  db_get (Some (updated (table 2) "k1" "w")) (Some "k1") = Some "w" /\
  count (updated (table 2) "k1" "w") = count (table 2) /\
  capacity (updated (table 2) "k1" "w") = capacity (table 2).
Proof.
  destruct (update_existing (table 2) "k1" "w" []
              (updated (table 2) "k1" "w") [])
    as (Hg & Hc & _ & Hcap & _).
  - apply valid_table; [vm_compute; reflexivity | lia].
  - apply (bool_decide_unpack _). vm_compute. exact I.
  - vm_compute. reflexivity.
  - split; [exact Hg|]. split; [exact Hc|].
    apply Hcap. vm_compute. reflexivity.
Defined.

(** C2 as stated fails: in the table holding the 48 keys [k1] ... [k48] at
    capacity 64, setting the present key [k1] again succeeds, leaves
    [count] at 48 and doubles the capacity to 128. *)
Lemma update_at_threshold_resizes :
  set_all created (pairs 48) [] = (Some (table 48), []) /\
  capacity (table 48) = 64 /\ count (table 48) = 48 /\
  db_exists (Some (table 48)) (Some "k1") = true /\
  exists t',
    db_set (Some (table 48)) (Some "k1") (Some "new") [] = ((true, Some t'), []) /\
    count t' = 48 /\ capacity t' = 128.
Proof.
  split; [apply set_all_table48|]. do 3 (split; [vm_compute; reflexivity|]).
  eexists. split; [vm_compute; reflexivity|]. by split.
Qed.

(** C3. For every table reached from [db_create] by successful [db_set]
    calls (fewer than [2^53] of them, the range in which the conversion of
    [count + 1] to [double] is exact): [count / capacity <= 0.75], and the
    capacity is a power of two that is at least 64; a [db_set] keeps the
    capacity or doubles it. *)
Theorem load_factor_invariant n t :
  set_reachable n t -> Z.of_nat n < 2 ^ 53 ->
  4 * count t <= 3 * capacity t /\
  (exists k, 6 <= k /\ capacity t = 2 ^ k) /\
  (forall s v h t' h',
      db_set (Some t) (Some s) (Some v) h = ((true, Some t'), h') ->
      capacity t' = capacity t \/ capacity t' = 2 * capacity t).
Proof.
  intros Hr Hn. destruct (set_reachable_valid n t Hr Hn) as (Hv & _ & Hload).
  split; [done|]. split.
  - destruct (valid_capacity t Hv) as (k & Hk & Hcap). exists k. split; [lia|done].
  - intros s v h t' h' Hs.
    apply db_set_cases in Hs as (tr & _ & _ & _ & Hcap & _ & Hcase); [|done].
    assert (capacity t' = capacity tr) as ->
      by (by destruct Hcase as [[_ ->]|[_ ->]]).
    rewrite Hcap. destruct (load_exceeded t); [by right | by left].
Qed.

Lemma load_factor_invariant_witness :
  4 * count (table 49) <= 3 * capacity (table 49) /\
  (exists k, 6 <= k /\ capacity (table 49) = 2 ^ k).
Proof.
  destruct (load_factor_invariant 49 (table 49)) as (Hl & Hc & _).
  - apply (set_all_reachable 0 created (pairs 49) [] (table 49) []).
    + apply (reach_create [] created []). reflexivity.
    + vm_compute. reflexivity.
  - lia.
  - split; [exact Hl | exact Hc].
Defined.

(** C4. Starting from a freshly created table, inserting 48 distinct keys
    leaves the capacity at 64; the successful insertion of a 49th distinct
    key doubles the capacity to 128: the table is rehashed to 128 buckets
    and the new entry is placed in the rehashed table. *)
Theorem resize_trigger kvs h0 t0 h1 t h2 :
  db_create h0 = (Some t0, h1) ->
  NoDup (kvs.*1) -> length kvs = 48%nat ->
  set_all t0 kvs h1 = (Some t, h2) ->
  capacity t = 64 /\ count t = 48 /\
  forall s v h t' h',
    s ∉ kvs.*1 ->
    db_set (Some t) (Some s) (Some v) h = ((true, Some t'), h') ->
    capacity t' = 128 /\ count t' = 49 /\
    exists tr hr, rehash t 128 h = ((true, tr), hr) /\ t' = inserted tr s v.
Proof.
  intros Hc Hnd Hlen Hall.
  pose proof (valid_create _ _ _ Hc) as Hv0.
  apply db_create_Some in Hc as ->.
  destruct (set_all_below_threshold kvs _ h1 t h2 Hv0) as (Hv & Hcap & Hcnt & Hkeys);
    try done.
  { cbn. lia. }
  { intros s _. cbn. unfold stored_keys, entries; cbn [buckets].
    rewrite concat_replicate_nil. apply not_elem_of_nil. }
  cbn [count] in Hcnt. split; [done|]. split; [lia|].
  intros s v h t' h' Hs Hset.
  assert (s ∉ stored_keys t) as Hnew.
  { rewrite Hkeys. intros [?|Hin]; [done|].
    unfold stored_keys, entries in Hin; cbn [buckets] in Hin.
    rewrite concat_replicate_nil in Hin. by apply elem_of_nil in Hin. }
  assert (load_exceeded t = true) as Hload.
  { rewrite (load_exceeded_exact t 6) by (rewrite ?Hcap; lia).
    apply Z.ltb_lt. lia. }
  apply db_set_true in Hset as (tr & hr & Hr & Hin).
  unfold resize_if_exceeded in Hr. rewrite Hload, Hcap in Hr.
  change (wrap (64 * 2)) with 128 in Hr.
  destruct (rehash_valid t 7 h tr hr Hv ltac:(lia) Hr) as (Hvr & Hcr & Hnr & Hpr);
    [rewrite Hcap; lia|].
  assert (s ∉ stored_keys tr) as Hnew_r.
  { unfold stored_keys. by rewrite Hpr. }
  apply (set_in_bucket_true tr s v Hvr) in Hin as [[? _]|[_ ->]]; [done|].
  destruct (valid_inserted tr s v Hvr Hnew_r) as [_ Hci]; [unfold SIZE_MAX; lia|].
  split; [by cbn|]. split; [lia|]. by exists tr, hr.
Qed.

Lemma resize_trigger_witness :
  capacity (table 48) = 64 /\ count (table 48) = 48 /\
  capacity (table 49) = 128 /\ count (table 49) = 49.
Proof.
  destruct (resize_trigger (pairs 48) [] created [] (table 48) [])
    as (Hcap & Hcnt & Hnext).
  - reflexivity.
  - apply (bool_decide_unpack _). vm_compute. exact I.
  - reflexivity.
  - vm_compute. reflexivity.
  - destruct (Hnext "k49" "v" [] (table 49) []) as (Hcap' & Hcnt' & _).
    + apply (bool_decide_unpack _). vm_compute. exact I.
    + vm_compute. reflexivity.
    + split; [exact Hcap|]. split; [exact Hcnt|]. split; [exact Hcap' | exact Hcnt'].
Defined.

(** C5. When the allocation of the new bucket array fails, [rehash]
    returns false with the table as it was, bucket array, capacity, count
    and entries, and the [db_set] that called it returns false with the
    table unchanged. *)
Theorem rehash_failure_is_atomic t s v h h' :
  load_exceeded t = true ->
  calloc (wrap (capacity t * 2)) sizeof_ptr h = (false, h') ->
  rehash t (wrap (capacity t * 2)) h = ((false, t), h') /\
  db_set (Some t) (Some s) (Some v) h = ((false, Some t), h').
Proof.
  intros Hload Hc. pose proof (rehash_fails t _ h h' Hc) as Hr.
  split; [done|].
  rewrite db_set_steps. unfold resize_if_exceeded. by rewrite Hload, Hr.
Qed.

Lemma rehash_failure_is_atomic_witness :
  rehash (table 48) 128 [false] = ((false, table 48), []) /\
  db_set (Some (table 48)) (Some "k49") (Some "v") [false]
  = ((false, Some (table 48)), []).
Proof.
  apply (rehash_failure_is_atomic (table 48) "k49" "v" [false] []).
  - vm_compute. reflexivity.
  - vm_compute. reflexivity.
Defined.

(** C6. For every table and key [s]: when [s] is present, [db_delete]
    returns true, a following [db_get] of [s] finds nothing and [count]
    has decreased by exactly one; when [s] is absent, [db_delete] returns
    false and the table is unchanged.  In both cases the bucket array keeps
    its capacity. *)
Theorem delete_present_or_absent t s :
  valid t ->
  (db_exists (Some t) (Some s) = true ->
   exists t', db_delete (Some t) (Some s) = (true, Some t') /\
              db_get (Some t') (Some s) = None /\
              count t' = count t - 1 /\
              capacity t' = capacity t /\
              length (buckets t') = length (buckets t)) /\
  (db_exists (Some t) (Some s) = false ->
   db_delete (Some t) (Some s) = (false, Some t)).
Proof.
  intros Hv. unfold db_exists. cbn [db_get db_delete].
  set (e := bucket_at (buckets t) (bucket_index (fnv1a s) (capacity t))).
  split.
  - intros Hex. destruct (chain_unlink e s) as [c|] eqn:Hu.
    + destruct (db_delete_present t s c Hv Hu) as (_ & Hc & Hg).
      eexists. split; [done|]. split; [done|]. split; [done|]. split; [done|].
      cbn. unfold bucket_store. apply length_insert.
    + apply chain_unlink_None, chain_get_None in Hu. by rewrite Hu in Hex.
  - intros Hex. destruct (chain_get e s) eqn:Hg; [done|].
    apply chain_get_None, chain_unlink_None in Hg. by rewrite Hg.
Qed.

Lemma delete_present_or_absent_witness :
  (exists t', db_delete (Some (table 2)) (Some "k1") = (true, Some t') /\
              db_get (Some t') (Some "k1") = None /\ count t' = 1) /\
  db_delete (Some (table 2)) (Some "k3") = (false, Some (table 2)).
Proof.
  destruct (delete_present_or_absent (table 2) "k1") as [Hp _].
  { apply valid_table; [vm_compute; reflexivity | lia]. }
  destruct (delete_present_or_absent (table 2) "k3") as [_ Ha].
  { apply valid_table; [vm_compute; reflexivity | lia]. }
  split.
  - destruct Hp as (t' & Hd & Hg & Hc & _); [vm_compute; reflexivity|].
    exists t'. split; [exact Hd|]. split; [exact Hg | exact Hc].
  - apply Ha. vm_compute. reflexivity.
Defined.

(** C7, as the code has it.  For every table a successful [db_keys] call
    returns [count] keys and sets the out count to [count]; the array
    lists the keys of the buckets in ascending index order, each chain from
    head to tail, and holds each stored key exactly once.  With no
    allocation failure the call succeeds on a table that is not empty. *)
Theorem keys_enumeration t oc :
  valid t ->
  (forall h arr out h',
      db_keys (Some t) (Some oc) h = ((Some arr, out), h') ->
      arr = concat (fmap (M:=list) key <$> buckets t) /\
      out = Some (count t) /\
      Z.of_nat (length arr) = count t /\
      NoDup arr /\
      (forall s, s ∈ arr <-> db_exists (Some t) (Some s) = true)) /\
  (count t <> 0 ->
   db_keys (Some t) (Some oc) []
   = ((Some (concat (fmap (M:=list) key <$> buckets t)), Some (count t)), [])).
Proof.
  intros Hv. rewrite concat_fmap. fold (entries t). fold (stored_keys t).
  assert (Z.of_nat (length (stored_keys t)) = count t) as Hlen.
  { unfold stored_keys. rewrite length_fmap. symmetry. apply Hv. }
  split.
  - intros h arr out h'. cbn [db_keys]. unfold bind, ret.
    destruct (Z.eqb_spec (count t) 0); [congruence|].
    destruct (malloc _ h) as [[] h1]; cbn [negb]; [|congruence].
    rewrite (valid_take_buckets t Hv).
    destruct (keys_buckets (buckets t) (count t) [] h1) as [[a|] h2] eqn:Hk;
      [|congruence].
    apply keys_buckets_Some in Hk; [|cbn; apply (eq_sym (valid_count t Hv))].
    cbn in Hk. subst a. intros [= <- <- _]. fold (entries t). fold (stored_keys t).
    split; [done|]. split; [by rewrite Hlen|]. split; [done|].
    split; [apply Hv|].
    intros s. unfold db_exists.
    destruct (db_get (Some t) (Some s)) eqn:Hg.
    + split; [done|]. intros _.
      destruct (decide (s ∈ stored_keys t)) as [|Hn]; [done|].
      apply (db_get_None t Hv) in Hn. congruence.
    + apply (db_get_None t Hv) in Hg. split; [done | congruence].
  - intros Hne. cbn [db_keys]. unfold bind, ret.
    destruct (Z.eqb_spec (count t) 0); [done|]. cbn.
    rewrite (valid_take_buckets t Hv).
    rewrite keys_buckets_no_failure by (cbn; apply (eq_sym (valid_count t Hv))).
    cbn. fold (entries t). fold (stored_keys t). by rewrite Hlen.
Qed.

Lemma keys_enumeration_witness :
  db_keys (Some (table 2)) (Some 0) [] = ((Some ["k1"; "k2"], Some 2), []).
Proof.
  destruct (keys_enumeration (table 2) 0) as [_ Hk].
  { apply valid_table; [vm_compute; reflexivity | lia]. }
  apply Hk. vm_compute. discriminate.
Defined.

(** C7 as stated fails on the order inside a bucket.  The keys [k30] and
    [k41] share a bucket at capacity 64 and at capacity 128.  [k41] is set
    after [k30]: after 48 insertions its entry is ahead of that of [k30].
    The 49th insertion rehashes the table, which reverses the chain: from
    then on [db_keys] lists [k30], the older key, first. *)
Lemma keys_order_after_rehash :
  keys49 !! 29%nat = Some "k30" /\ keys49 !! 40%nat = Some "k41" /\
  set_all created (pairs 49) [] = (Some (table 49), []) /\
  key <$> bucket_at (buckets (table 48)) 17 = ["k41"; "k30"] /\
  key <$> bucket_at (buckets (table 49)) 81 = ["k30"; "k41"] /\
  exists arr,
    db_keys (Some (table 49)) (Some 0) [] = ((Some arr, Some 49), []) /\
    arr !! 33%nat = Some "k30" /\ arr !! 34%nat = Some "k41".
Proof.
  do 2 (split; [reflexivity|]).
  split; [apply set_all_table49|]. do 2 (split; [vm_compute; reflexivity|]).
  eexists. split; [vm_compute; reflexivity|]. by split.
Qed.

(** C8, as the code has it.  For every table with [count] zero [db_keys]
    returns NULL with the out count set to zero, without allocating; every
    NULL result, that of the empty table and that of a failed allocation,
    comes with the out count zero. *)
Theorem keys_of_empty_table t oc h :
  count t = 0 ->
  db_keys (Some t) (Some oc) h = ((None, Some 0), h) /\
  (forall t2 oc2 h2 out h2',
      db_keys (Some t2) (Some oc2) h2 = ((None, out), h2') -> out = Some 0).
Proof.
  intros Hc. split.
  - cbn [db_keys]. rewrite Hc. reflexivity.
  - intros t2 oc2 h2 out h2'. cbn [db_keys]. unfold bind, ret.
    destruct (count t2 =? 0)%Z; [congruence|].
    destruct (malloc _ h2) as [[] h3]; cbn [negb]; [|congruence].
    destruct (keys_buckets _ _ _ h3) as [[a|] h4]; congruence.
Qed.

Lemma keys_of_empty_table_witness :
  db_keys (Some created) (Some 7) [] = ((None, Some 0), []).
Proof.
  apply (keys_of_empty_table created 7 []). reflexivity.
Defined.

(** C8 as stated fails: the result of [db_keys] on the empty table is the
    result of [db_keys] on a table of two entries when the allocation of
    the array fails, or when a key copy fails. *)
Lemma keys_empty_result_is_failure_result :
  count created = 0 /\ count (table 2) = 2 /\
  fst (db_keys (Some created) (Some 7) []) = (None, Some 0) /\
  fst (db_keys (Some (table 2)) (Some 7) [false]) = (None, Some 0) /\
  fst (db_keys (Some (table 2)) (Some 7) [true; true; false]) = (None, Some 0).
Proof. vm_compute. by repeat split. Qed.

(** C9. For every table [db_stats] returns: in [total_entries], the value
    of [db_count]; in [used_buckets], the number of buckets that are not
    empty, at most [capacity]; in [total_collisions], the sum over the
    buckets of [max (chain length - 1) 0]; in [max_chain_length], the
    maximum chain length, at least 1 when [count > 0] and 0 for the empty
    table.  [db_stats] reads the table and returns the statistics only. *)
Theorem stats_consistency t :
  valid t ->
  db_stats (Some t)
  = mkStats (db_count (Some t))
            (sum_collisions (buckets t))
            (longest_chain (buckets t))
            (nonempty_buckets (buckets t)) /\
  used_buckets (db_stats (Some t)) <= capacity t /\
  (0 < count t -> 1 <= max_chain_length (db_stats (Some t))) /\
  (count t = 0 -> max_chain_length (db_stats (Some t)) = 0).
Proof.
  intros Hv.
  pose proof (valid_count t Hv) as Hc. unfold entries in Hc.
  pose proof (valid_count_size t Hv) as Hs.
  pose proof (valid_length t Hv) as Hl.
  pose proof (valid_capacity_pos t Hv) as Hcap.
  pose proof (longest_chain_bounds (buckets t)) as [Hlb Hl1].
  pose proof (nonempty_buckets_bounds (buckets t)) as Hn.
  assert (db_stats (Some t)
          = mkStats (count t) (sum_collisions (buckets t))
                    (longest_chain (buckets t))
                    (nonempty_buckets (buckets t))) as ->.
  { cbn [db_stats]. rewrite (valid_take_buckets t Hv).
    rewrite stats_fold; cbn; try lia; [f_equal; lia|].
    unfold SIZE_MAX. lia. }
  cbn. repeat split; lia.
Qed.

Lemma stats_consistency_witness :
  db_stats (Some (table 49)) = mkStats 49 10 2 39.
Proof.
  destruct (stats_consistency (table 49)) as [Hs _].
  { apply valid_table; [vm_compute; reflexivity | lia]. }
  rewrite Hs. vm_compute. reflexivity.
Defined.

(** C10. The empty string is a key like any other.  Its hash is the FNV
    offset basis; [db_set] accepts it, inserting an entry or updating the
    one present, and a following [db_get] of the empty key returns the
    value set. *)
Theorem empty_key t v :
  valid t ->
  fnv1a EmptyString = 14695981039346656037 /\
  (capacity t < 2 ^ 60 ->
   exists t', db_set (Some t) (Some EmptyString) (Some v) [] = ((true, Some t'), [])) /\
  (forall h t' h',
      db_set (Some t) (Some EmptyString) (Some v) h = ((true, Some t'), h') ->
      db_get (Some t') (Some EmptyString) = Some v /\
      ((EmptyString ∈ stored_keys t /\ count t' = count t) \/
       ((EmptyString ∉ stored_keys t) /\ count t' = wrap (count t + 1)))).
Proof.
  intros Hv. split; [reflexivity|]. split; [by apply db_set_succeeds|].
  intros h t' h' Hs. split; [by eapply db_set_get|].
  apply db_set_cases in Hs as (tr & _ & Hc & _ & _ & _ & Hcase); [|done].
  destruct Hcase as [[? ->]|[? ->]]; [left | right]; cbn; by rewrite ?Hc.
Qed.

Lemma empty_key_witness :
  fnv1a EmptyString = 14695981039346656037 /\
  exists t', db_set (Some created) (Some EmptyString) (Some "v") [] = ((true, Some t'), []) /\
             db_get (Some t') (Some EmptyString) = Some "v".
Proof.
  destruct (empty_key created "v" valid_created) as (Hh & Hex & Hget).
  split; [exact Hh|].
  destruct Hex as [t' Ht']; [reflexivity|].
  exists t'. split; [exact Ht'|]. exact (proj1 (Hget [] t' [] Ht')).
Defined.

(** * Further properties *)

(** ** The map a table represents *)

Lemma pair_of_keys (es : list Entry) : (pair_of <$> es).*1 = key <$> es.
Proof. rewrite <- list_fmap_compose. by apply list_fmap_ext. Qed.

Lemma contents_entries t :
  contents t = list_to_map (pair_of <$> entries t).
Proof. reflexivity. Qed.

Lemma chain_get_Some_elem e k v :
  chain_get e k = Some v -> exists x, x ∈ e /\ key x = k /\ value x = v.
Proof.
  induction e as [|x e IH]; cbn; [done|].
  destruct (strcmp0 (key x) k) eqn:E.
  - apply strcmp0_true in E. intros [= <-]. exists x. split; [left | done].
  - intros H. destruct (IH H) as (y & ? & ? & ?). exists y. split; [by right | done].
Qed.

(** [db_get] is the lookup in the map the table represents. *)
Lemma db_get_contents t k :
  valid t -> db_get (Some t) (Some k) = contents t !! k.
Proof.
  intros Hv. rewrite contents_entries.
  destruct (db_get (Some t) (Some k)) as [v|] eqn:Hg.
  - symmetry. apply elem_of_list_to_map_1.
    + rewrite pair_of_keys. apply Hv.
    + cbn in Hg. apply chain_get_Some_elem in Hg as (x & Hx & <- & <-).
      apply (list_elem_of_fmap_2 pair_of). apply elem_of_concat_lookup.
      eexists _, _. split; [apply (valid_home_lookup t Hv)|done].
  - symmetry. apply not_elem_of_list_to_map_1. rewrite pair_of_keys.
    by apply (db_get_None t Hv).
Qed.

Lemma contents_perm t t' :
  NoDup (stored_keys t) -> entries t ≡ₚ entries t' -> contents t = contents t'.
Proof.
  intros Hnd Hp. rewrite !contents_entries. apply list_to_map_proper.
  - by rewrite pair_of_keys.
  - by rewrite Hp.
Qed.

Lemma contents_cons t t' x :
  NoDup (stored_keys t') -> entries t' ≡ₚ x :: entries t ->
  contents t' = <[key x := value x]> (contents t).
Proof.
  intros Hnd Hp. rewrite !contents_entries.
  rewrite (list_to_map_proper _ (pair_of <$> x :: entries t)).
  - rewrite fmap_cons. change (pair_of x) with (key x, value x).
    by rewrite list_to_map_cons.
  - by rewrite pair_of_keys.
  - by rewrite Hp.
Qed.

Lemma contents_size t : valid t -> count t = Z.of_nat (size (contents t)).
Proof.
  intros Hv. rewrite contents_entries, map_size_list_to_map.
  - rewrite length_fmap. apply Hv.
  - rewrite pair_of_keys. apply Hv.
Qed.

Lemma contents_dom t k : valid t -> k ∈ stored_keys t <-> is_Some (contents t !! k).
Proof.
  intros Hv. rewrite <- db_get_contents by done.
  destruct (db_get (Some t) (Some k)) eqn:Hg.
  - split; [by eexists|]. intros _.
    destruct (decide (k ∈ stored_keys t)) as [|Hn]; [done|].
    apply (db_get_None t Hv) in Hn. congruence.
  - apply (db_get_None t Hv) in Hg. split; [done|]. by intros [? ?].
Qed.

(** ** The map after each operation *)

Lemma chain_get_with_value_other s v k (e : list Entry) :
  k <> s -> chain_get (with_value s v <$> e) k = chain_get e k.
Proof.
  intros Hk. induction e as [|x e IH]; cbn; [done|].
  rewrite with_value_key, IH. destruct (strcmp0 (key x) k) eqn:E; [|done].
  unfold with_value. destruct (strcmp0 (key x) s) eqn:E'; [|done].
  apply strcmp0_true in E, E'. congruence.
Qed.

Lemma updated_get_other t s v k :
  k <> s -> db_get (Some (updated t s v)) (Some k) = db_get (Some t) (Some k).
Proof.
  intros Hk. cbn. unfold bucket_at. rewrite list_lookup_fmap.
  destruct (buckets t !! _) as [c|]; cbn; [|done].
  by apply chain_get_with_value_other.
Qed.

Lemma inserted_get_other t s v k :
  k <> s -> db_get (Some (inserted t s v)) (Some k) = db_get (Some t) (Some k).
Proof.
  intros Hk. cbn. unfold bucket_at, bucket_store.
  set (i := Z.to_nat (bucket_index (fnv1a s) (capacity t))).
  set (j := Z.to_nat (bucket_index (fnv1a k) (capacity t))).
  destruct (decide (i = j)) as [<-|Hne].
  - destruct (buckets t !! i) as [c|] eqn:Hi.
    + rewrite list_lookup_insert_eq by (by eapply lookup_lt_Some). cbn.
      destruct (strcmp0 s k) eqn:E; [|done].
      apply strcmp0_true in E. congruence.
    + rewrite list_insert_ge by (by apply lookup_ge_None). by rewrite Hi.
  - by rewrite list_lookup_insert_ne.
Qed.

Lemma list_to_map_with_value s v (es : list Entry) :
  s ∈ key <$> es ->
  list_to_map (pair_of <$> (with_value s v <$> es))
  =@{gmap string string} <[s:=v]> (list_to_map (pair_of <$> es)).
Proof.
  induction es as [|x es IH]; [by intros ?%elem_of_nil|].
  intros Hs. rewrite !fmap_cons.
  change (pair_of x) with (key x, value x).
  change (pair_of (with_value s v x))
    with (key (with_value s v x), value (with_value s v x)).
  rewrite !list_to_map_cons, with_value_key.
  unfold with_value at 1. destruct (strcmp0 (key x) s) eqn:E.
  - apply strcmp0_true in E. cbn [value]. rewrite E.
    destruct (decide (s ∈ key <$> es)) as [Hin|Hout].
    + by rewrite IH, !insert_insert_eq.
    + by rewrite with_value_absent, insert_insert_eq.
  - apply strcmp0_false in E.
    apply elem_of_cons in Hs as [->|Hs]; [done|].
    rewrite IH by done. by apply insert_insert_ne.
Qed.

Lemma contents_updated t s v :
  s ∈ stored_keys t -> contents (updated t s v) = <[s:=v]> (contents t).
Proof.
  intros Hs. unfold contents, updated; cbn [buckets].
  rewrite concat_fmap. by apply list_to_map_with_value.
Qed.

Lemma contents_inserted t s v :
  valid t -> s ∉ stored_keys t ->
  contents (inserted t s v) = <[s:=v]> (contents t).
Proof.
  intros Hv Hs. apply (contents_cons t _ (mkEntry s v)).
  - rewrite (inserted_keys t s v Hv). apply NoDup_cons. split; [done | apply Hv].
  - apply (inserted_entries t s v Hv).
Qed.

Lemma unlinked_entries t s c :
  valid t ->
  chain_unlink (bucket_at (buckets t) (bucket_index (fnv1a s) (capacity t))) s
  = Some c ->
  exists x, key x = s /\ entries t ≡ₚ x :: entries (unlinked t s c).
Proof.
  intros Hv Hu. destruct (chain_unlink_Some _ _ _ Hu) as (x & Hx & Hp).
  exists x. split; [done|].
  pose proof (valid_home_lookup t Hv s) as Hl.
  unfold entries, unlinked, bucket_store; cbn [buckets].
  rewrite (concat_insert _ _ _ c Hl), (concat_middle _ _ _ Hl), Hp.
  cbn. symmetry. apply Permutation_middle.
Qed.

Lemma contents_unlinked t s c :
  valid t ->
  chain_unlink (bucket_at (buckets t) (bucket_index (fnv1a s) (capacity t))) s
  = Some c ->
  contents (unlinked t s c) = delete s (contents t).
Proof.
  intros Hv Hu.
  destruct (db_delete_present t s c Hv Hu) as (Hv' & _ & Hg).
  destruct (unlinked_entries t s c Hv Hu) as (x & Hx & Hp).
  rewrite (contents_cons (unlinked t s c) t x); [|apply Hv|done].
  rewrite Hx. symmetry. apply delete_insert_id.
  by rewrite <- db_get_contents.
Qed.

Lemma rehash_false t new_cap h t' h' :
  rehash t new_cap h = ((false, t'), h') -> t' = t.
Proof.
  unfold rehash, bind, ret.
  destruct (calloc new_cap sizeof_ptr h) as [[] h1]; cbn; congruence.
Qed.

Lemma resize_contents t h ok tr h1 :
  valid t -> resize_if_exceeded t h = ((ok, tr), h1) ->
  valid tr /\ contents tr = contents t /\ count tr = count t /\
  (capacity tr = capacity t \/ capacity tr = 2 * capacity t).
Proof.
  intros Hv Hr. destruct ok.
  - destruct (resize_valid t h tr h1 Hv Hr) as (Hvr & Hc & Hp & Hcap & _).
    split; [done|]. split.
    { symmetry. apply contents_perm; [apply Hv | by symmetry]. }
    split; [done|]. rewrite Hcap. destruct (load_exceeded t); [by right | by left].
  - unfold resize_if_exceeded in Hr. destruct (load_exceeded t).
    + apply rehash_false in Hr as ->. do 3 (split; [done|]). by left.
    + unfold ret in Hr. congruence.
Qed.

Lemma db_set_contents t s v h t' h' :
  valid t ->
  db_set (Some t) (Some s) (Some v) h = ((true, Some t'), h') ->
  contents t' = <[s:=v]> (contents t) /\
  (forall k, k <> s -> db_get (Some t') (Some k) = db_get (Some t) (Some k)).
Proof.
  intros Hv (tr & Hvr & _ & Hp & _ & _ & Hcase)%db_set_cases; [|done].
  assert (contents tr = contents t) as Hc
    by (symmetry; apply contents_perm; [apply Hv | by symmetry]).
  assert (stored_keys tr ≡ₚ stored_keys t) as Hkeys
    by (unfold stored_keys; by rewrite Hp).
  assert (forall k, db_get (Some tr) (Some k) = db_get (Some t) (Some k)) as Hg
    by (intros k; by rewrite !db_get_contents, Hc).
  destruct Hcase as [[Hs ->]|[Hs ->]].
  - split.
    + rewrite contents_updated, Hc; [done | by rewrite Hkeys].
    + intros k Hk. by rewrite updated_get_other, Hg.
  - split.
    + rewrite contents_inserted, Hc; [done | done | by rewrite Hkeys].
    + intros k Hk. by rewrite inserted_get_other, Hg.
Qed.

(** ** Allocation success *)

Lemma malloc_all_succeed size h :
  all_succeed h -> exists h', malloc size h = (true, h') /\ all_succeed h'.
Proof.
  intros Hh. destruct h as [|b h]; cbn; [by eexists|].
  apply Forall_cons in Hh as [-> Hh]. by eexists.
Qed.

Lemma dup_str_all_succeed s h :
  all_succeed h -> exists h', dup_str s h = (Some s, h') /\ all_succeed h'.
Proof.
  intros Hh. unfold dup_str, bind, ret.
  destruct (malloc_all_succeed (wrap (strlen s + 1)) h Hh) as (h' & -> & Hh').
  by eexists.
Qed.

Lemma update_walk_all_succeed e k v h :
  all_succeed h ->
  exists r h', update_walk e k v h = (r, h') /\ all_succeed h' /\
               r <> walk_nomem.
Proof.
  intros Hh. induction e as [|x e IH]; cbn.
  - by eexists _, _.
  - destruct (strcmp0 (key x) k).
    + unfold bind, ret.
      destruct (dup_str_all_succeed v h Hh) as (h' & -> & Hh').
      by eexists _, _.
    + unfold bind, ret. destruct IH as (r & h' & -> & Hh' & Hr).
      eexists _, _. split; [done|]. split; [done|]. by destruct r.
Qed.

Lemma set_in_bucket_all_succeed t s v h :
  all_succeed h ->
  exists t' h', set_in_bucket t s v h = ((true, t'), h') /\ all_succeed h'.
Proof.
  intros Hh. unfold set_in_bucket, bind, ret.
  destruct (update_walk_all_succeed
              (bucket_at (buckets t) (bucket_index (fnv1a s) (capacity t)))
              s v h Hh) as (r & h1 & -> & Hh1 & Hr).
  destruct r as [c| |]; [by eexists _, _ | done |].
  destruct (malloc_all_succeed sizeof_Entry h1 Hh1) as (h2 & -> & Hh2). cbn.
  destruct (dup_str_all_succeed s h2 Hh2) as (h3 & -> & Hh3).
  destruct (dup_str_all_succeed v h3 Hh3) as (h4 & -> & Hh4).
  by eexists _, _.
Qed.

(** X1. A successful [db_set] of [s] to [v] is the insertion of [s := v] in
    the map the table represents: afterwards [db_get] of [s] is [v] and
    [db_get] of every other key returns what it returned before, also
    when the call rehashed the table. *)
Theorem set_is_map_insert t s v h t' h' :
  valid t ->
  db_set (Some t) (Some s) (Some v) h = ((true, Some t'), h') ->
  contents t' = <[s:=v]> (contents t) /\
  db_get (Some t') (Some s) = Some v /\
  (forall k, k <> s -> db_get (Some t') (Some k) = db_get (Some t) (Some k)).
Proof.
  intros Hv Hs. destruct (db_set_contents t s v h t' h' Hv Hs) as [Hc Hg].
  split; [done|]. split; [by eapply db_set_get | done].
Qed.

Lemma set_is_map_insert_witness :
  contents (table 49) = <["k49":="v"]> (contents (table 48)) /\
  db_get (Some (table 49)) (Some "k49") = Some "v" /\
  db_get (Some (table 49)) (Some "k7") = db_get (Some (table 48)) (Some "k7").
Proof.
  destruct (set_is_map_insert (table 48) "k49" "v" [] (table 49) [])
    as (Hc & Hg & Hother).
  - apply valid_table; [vm_compute; reflexivity | lia].
  - vm_compute. reflexivity.
  - split; [exact Hc|]. split; [exact Hg|]. apply Hother. discriminate.
Defined.

(** X2. [db_set] keeps the table invariant, and [count] goes up by one
    exactly when the key was not present (as long as [count] is below
    [SIZE_MAX]). *)
Theorem set_keeps_invariant t s v h t' h' :
  valid t -> count t < SIZE_MAX ->
  db_set (Some t) (Some s) (Some v) h = ((true, Some t'), h') ->
  valid t' /\
  count t' = count t + (if db_exists (Some t) (Some s) then 0 else 1).
Proof.
  intros Hv Hc Hs.
  destruct (db_set_valid t s v h t' h' Hv Hc Hs) as (Hv' & _ & Hcase).
  split; [done|]. unfold db_exists.
  destruct Hcase as [(Hin & -> & _)|(Hout & -> & _)].
  - destruct (db_get (Some t) (Some s)) eqn:Hg; [lia|].
    by apply (db_get_None t Hv) in Hg.
  - apply (db_get_None t Hv) in Hout. by rewrite Hout.
Qed.

Lemma set_keeps_invariant_witness :
  valid (table 49) /\ count (table 49) = count (table 48) + 1.
Proof.
  apply (set_keeps_invariant (table 48) "k49" "v" [] (table 49) []).
  - apply valid_table; [vm_compute; reflexivity | lia].
  - vm_compute. reflexivity.
  - vm_compute. reflexivity.
Defined.

(** X3. A [db_set] that returns false leaves a table that holds the same
    map and the same [count]: every [db_get] returns what it returned
    before.  When the load-factor test did not fire the table is unchanged;
    when it fired, the rehash may have succeeded before a later allocation
    failed, and then the capacity has doubled. *)
Theorem failed_set_keeps_contents t s v h r h' :
  valid t ->
  db_set (Some t) (Some s) (Some v) h = ((false, r), h') ->
  exists t', r = Some t' /\ valid t' /\
             contents t' = contents t /\ count t' = count t /\
             (forall k, db_get (Some t') (Some k) = db_get (Some t) (Some k)) /\
             (capacity t' = capacity t \/ capacity t' = 2 * capacity t) /\
             (load_exceeded t = false -> t' = t).
Proof.
  intros Hv. rewrite db_set_steps.
  destruct (resize_if_exceeded t h) as [[ok tr] h1] eqn:Hr.
  destruct (resize_contents t h ok tr h1 Hv Hr) as (Hvr & Hc & Hn & Hcap).
  assert (forall k, db_get (Some tr) (Some k) = db_get (Some t) (Some k)) as Hg
    by (intros k; by rewrite !db_get_contents, Hc).
  assert (load_exceeded t = false -> tr = t) as Hsame.
  { intros Hle. unfold resize_if_exceeded in Hr. rewrite Hle in Hr.
    unfold ret in Hr. congruence. }
  destruct ok; cbn [fst snd negb].
  - destruct (set_in_bucket tr s v h1) as [[ok' t'] h2] eqn:Hs. cbn [fst snd].
    intros [= -> <- <-]. apply set_in_bucket_false in Hs as ->. by exists tr.
  - intros [= <- <-]. by exists tr.
Qed.

Lemma failed_set_keeps_contents_witness :
  exists t', db_set (Some (table 48)) (Some "k49") (Some "v") [true; false]
             = ((false, Some t'), []) /\
             contents t' = contents (table 48) /\ count t' = 48 /\
             capacity t' = 128.
Proof.
  destruct (failed_set_keeps_contents (table 48) "k49" "v" [true; false]
              (snd (fst (db_set (Some (table 48)) (Some "k49") (Some "v")
                           [true; false]))) [])
    as (t' & Hr & _ & Hc & Hn & _).
  - apply valid_table; [vm_compute; reflexivity | lia].
  - vm_compute. reflexivity.
  - exists t'. split.
    + rewrite <- Hr. vm_compute. reflexivity.
    + split; [exact Hc|]. split; [rewrite Hn; reflexivity|].
      assert (Some (capacity t') = Some 128) as [= ->]; [|reflexivity].
      change (Some (capacity t')) with (capacity <$> Some t').
      rewrite <- Hr. vm_compute. reflexivity.
Defined.

(** X4. [db_set] fails only through allocation: on a heap where no request
    fails it returns true, for every key and value, as long as the bucket
    array is not yet the largest one [calloc] can provide. *)
Theorem set_succeeds_without_failure t s v h :
  valid t -> capacity t < 2 ^ 60 -> all_succeed h ->
  exists t' h', db_set (Some t) (Some s) (Some v) h = ((true, Some t'), h').
Proof.
  intros Hv Hcap Hh. rewrite db_set_steps.
  assert (exists tr h1, resize_if_exceeded t h = ((true, tr), h1) /\
                        all_succeed h1) as (tr & h1 & -> & Hh1).
  { unfold resize_if_exceeded. destruct (load_exceeded t); [|by eexists _, _].
    unfold rehash, bind, ret, calloc.
    pose proof (valid_capacity_pos t Hv).
    rewrite wrap_small by (unfold SIZE_MAX; lia).
    destruct (Z.ltb_spec SIZE_MAX (capacity t * 2 * sizeof_ptr)) as [Hlt|];
      [unfold SIZE_MAX, sizeof_ptr in Hlt; lia|].
    destruct (malloc_all_succeed (capacity t * 2 * sizeof_ptr) h Hh)
      as (h1 & -> & Hh1).
    cbn. by eexists _, _. }
  cbn [fst snd negb].
  destruct (set_in_bucket_all_succeed tr s v h1 Hh1) as (t' & h2 & -> & _).
  by eexists _, _.
Qed.

Lemma set_succeeds_without_failure_witness :
  exists t' h', db_set (Some (table 48)) (Some "k49") (Some "v")
                  [true; true; true; true] = ((true, Some t'), h').
Proof.
  apply (set_succeeds_without_failure (table 48) "k49" "v"
           [true; true; true; true]).
  - apply valid_table; [vm_compute; reflexivity | lia].
  - vm_compute. reflexivity.
  - repeat constructor.
Defined.

Lemma relink_length new_cap (nb : list chain) x :
  length (relink new_cap nb x) = length nb.
Proof. unfold relink, bucket_store. apply length_insert. Qed.

(** The chain the relinking loop builds in bucket [j]: the entries that
    hash to [j], the last one relinked first. *)
Lemma relink_bucket new_cap k (es : list Entry) (nb : list chain) j :
  0 <= k <= 63 -> new_cap = 2 ^ k -> Z.of_nat (length nb) = new_cap ->
  0 <= j < new_cap ->
  bucket_at (fold_left (relink new_cap) es nb) j
  = reverse (filter (fun e => bucket_index (fnv1a (key e)) new_cap = j) es)
    ++ bucket_at nb j.
Proof.
  intros Hk Hcap Hlen Hj. revert nb Hlen.
  induction es as [|x es IH]; intros nb Hlen; cbn [fold_left]; [done|].
  rewrite IH by (by rewrite relink_length).
  pose proof (bucket_index_range (fnv1a (key x)) k Hk) as Hidx.
  rewrite <- Hcap in Hidx.
  rewrite filter_cons. unfold relink.
  destruct (decide (bucket_index (fnv1a (key x)) new_cap = j)) as [<-|Hne].
  - rewrite bucket_at_store by lia. rewrite reverse_cons, <- app_assoc. done.
  - unfold bucket_at, bucket_store.
    rewrite list_lookup_insert_ne by lia. done.
Qed.

Lemma db_delete_contents t s r t' :
  valid t -> db_delete (Some t) (Some s) = (r, Some t') ->
  valid t' /\ contents t' = delete s (contents t) /\
  r = db_exists (Some t) (Some s) /\
  count t' = count t - (if r then 1 else 0) /\
  capacity t' = capacity t.
Proof.
  intros Hv. unfold db_exists. cbn [db_delete db_get].
  destruct (chain_unlink _ s) as [c|] eqn:Hu.
  - intros [= <- <-]. fold (unlinked t s c).
    destruct (db_delete_present t s c Hv Hu) as (Hv' & Hc & _).
    split; [done|]. split; [by apply contents_unlinked|].
    split; [|by split].
    destruct (chain_get _ s) eqn:Hg; [done|].
    apply chain_get_None, chain_unlink_None in Hg. congruence.
  - intros [= <- <-]. split; [done|].
    pose proof Hu as Hg. apply chain_unlink_None, chain_get_None in Hg.
    rewrite Hg. split; [|split; [done | split; [lia | done]]].
    symmetry. apply delete_id. rewrite <- db_get_contents by done. exact Hg.
Qed.

Lemma stats_replicate n s : fold_left stats_bucket (replicate n []) s = s.
Proof. induction n as [|n IH]; cbn; done. Qed.

(** X5. A successful [rehash] to a power-of-two capacity moves every entry
    and loses none: the table keeps its invariant, its [count] and the
    map it represents, and bucket [j] of the new array holds the entries
    whose keys hash to [j], in the reverse of the order in which the old
    array listed them. *)
Theorem rehash_moves_entries t k h t' h' :
  valid t -> 0 <= k -> capacity t <= 2 ^ k ->
  rehash t (2 ^ k) h = ((true, t'), h') ->
  valid t' /\ capacity t' = 2 ^ k /\ count t' = count t /\
  contents t' = contents t /\
  (forall s, db_get (Some t') (Some s) = db_get (Some t) (Some s)) /\
  (forall j, 0 <= j < 2 ^ k ->
     bucket_at (buckets t') j
     = reverse (filter (fun e => bucket_index (fnv1a (key e)) (2 ^ k) = j)
                       (entries t))).
Proof.
  intros Hv Hk Hle Hr.
  destruct (rehash_valid t k h t' h' Hv Hk Hr Hle) as (Hv' & Hcap & Hn & Hp).
  assert (contents t' = contents t) as Hc
    by (symmetry; apply contents_perm; [apply Hv | by symmetry]).
  do 4 (split; [done|]). split.
  { intros s. by rewrite !db_get_contents, Hc. }
  intros j Hj. apply rehash_true in Hr as [Hcal ->]. cbn [buckets].
  apply calloc_ok, pow2_calloc_bound in Hcal; [|done].
  rewrite (valid_take_buckets t Hv), relink_chain_concat.
  rewrite (relink_bucket (2 ^ k) k); try done; try lia.
  - unfold bucket_at. rewrite lookup_replicate_2; [by rewrite app_nil_r | lia].
  - rewrite length_replicate. pose proof (pow2_le k 60 ltac:(lia)). lia.
Qed.

Lemma rehash_moves_entries_witness :
  exists t', rehash (table 48) (2 ^ 7) [] = ((true, t'), []) /\
             capacity t' = 2 ^ 7 /\ count t' = 48 /\
             contents t' = contents (table 48).
Proof.
  destruct (rehash_moves_entries (table 48) 7 []
              (snd (fst (rehash (table 48) (2 ^ 7) []))) [])
    as (_ & Hcap & Hn & Hc & _).
  - apply valid_table; [vm_compute; reflexivity | lia].
  - lia.
  - vm_compute. discriminate.
  - vm_compute. reflexivity.
  - exists (snd (fst (rehash (table 48) (2 ^ 7) []))).
    split; [vm_compute; reflexivity|].
    split; [exact Hcap|]. split; [|exact Hc].
    etransitivity; [exact Hn | vm_compute; reflexivity].
Defined.

(** X6. [db_delete] of [s] is the deletion of [s] from the map the table
    represents.  It returns what [db_exists] returned, keeps the table
    invariant and the capacity, takes one off [count] exactly when it
    returns true, and leaves [db_get] of every other key as it was. *)
Theorem delete_is_map_delete t s r t' :
  valid t -> db_delete (Some t) (Some s) = (r, Some t') ->
  valid t' /\ contents t' = delete s (contents t) /\
  r = db_exists (Some t) (Some s) /\
  count t' = count t - (if r then 1 else 0) /\
  capacity t' = capacity t /\
  (forall k, k <> s -> db_get (Some t') (Some k) = db_get (Some t) (Some k)).
Proof.
  intros Hv Hd.
  destruct (db_delete_contents t s r t' Hv Hd) as (Hv' & Hc & Hr & Hn & Hcap).
  do 5 (split; [done|]). intros k Hk.
  rewrite !db_get_contents, Hc by done. by apply lookup_delete_ne.
Qed.

Lemma delete_is_map_delete_witness :
  exists t', db_delete (Some (table 49)) (Some "k30") = (true, Some t') /\
             contents t' = delete "k30" (contents (table 49)) /\
             count t' = 48 /\
             db_get (Some t') (Some "k41") = Some "v".
Proof.
  destruct (delete_is_map_delete (table 49) "k30" true
              (unlinked (table 49) "k30"
                 [mkEntry "k41" "v"]))
    as (_ & Hc & _ & Hn & _ & Hother).
  - apply valid_table; [vm_compute; reflexivity | lia].
  - vm_compute. reflexivity.
  - exists (unlinked (table 49) "k30" [mkEntry "k41" "v"]).
    split; [vm_compute; reflexivity|].
    split; [exact Hc|].
    split; [etransitivity; [exact Hn | vm_compute; reflexivity]|].
    rewrite Hother by discriminate. vm_compute. reflexivity.
Defined.

(** X7. Setting a key that is absent and deleting it again restores the
    table's map and [count]: [db_delete] returns true and every [db_get]
    returns what it returned before the [db_set]. *)
Theorem set_then_delete_restores t s v h t1 h1 :
  valid t -> count t < SIZE_MAX ->
  db_exists (Some t) (Some s) = false ->
  db_set (Some t) (Some s) (Some v) h = ((true, Some t1), h1) ->
  exists t2, db_delete (Some t1) (Some s) = (true, Some t2) /\
             valid t2 /\ contents t2 = contents t /\ count t2 = count t /\
             (forall k, db_get (Some t2) (Some k) = db_get (Some t) (Some k)).
Proof.
  intros Hv Hn Hex Hs.
  assert (contents t !! s = None) as Hnone.
  { rewrite <- db_get_contents by done. unfold db_exists in Hex.
    by destruct (db_get (Some t) (Some s)). }
  destruct (db_set_valid t s v h t1 h1 Hv Hn Hs) as (Hv1 & _ & Hcase).
  destruct (db_set_contents t s v h t1 h1 Hv Hs) as [Hc1 _].
  assert (count t1 = count t + 1) as Hn1.
  { destruct Hcase as [(Hin & _)|(_ & ? & _)]; [|done].
    apply (contents_dom t s Hv) in Hin as [? ?]. congruence. }
  destruct (db_delete (Some t1) (Some s)) as [r [t2|]] eqn:Hd;
    [|by cbn in Hd; destruct (chain_unlink _ s)].
  destruct (db_delete_contents t1 s r t2 Hv1 Hd) as (Hv2 & Hc2 & Hr & Hn2 & _).
  assert (r = true) as ->.
  { rewrite Hr. unfold db_exists. by rewrite (db_set_get t s v h t1 h1 Hv Hs). }
  assert (contents t2 = contents t) as Hc
    by (rewrite Hc2, Hc1; by apply delete_insert_id).
  exists t2. split; [done|]. split; [done|]. split; [done|]. split; [lia|].
  intros k. by rewrite !db_get_contents, Hc.
Qed.

Lemma set_then_delete_restores_witness :
  exists t2, db_delete (Some (table 49)) (Some "k49") = (true, Some t2) /\
             contents t2 = contents (table 48) /\ count t2 = count (table 48).
Proof.
  destruct (set_then_delete_restores (table 48) "k49" "v" [] (table 49) [])
    as (t2 & Hd & _ & Hc & Hn & _).
  - apply valid_table; [vm_compute; reflexivity | lia].
  - vm_compute. reflexivity.
  - vm_compute. reflexivity.
  - vm_compute. reflexivity.
  - exists t2. split; [exact Hd|]. split; [exact Hc | exact Hn].
Defined.

(** X8. Setting the same key twice: the second [db_set] leaves [count] as
    the first left it, [db_get] returns the second value, and the table
    represents the map with the key bound to the second value. *)
Theorem set_twice_is_update t s v1 v2 h t1 h1 t2 h2 :
  valid t -> count t < SIZE_MAX ->
  db_set (Some t) (Some s) (Some v1) h = ((true, Some t1), h1) ->
  db_set (Some t1) (Some s) (Some v2) h1 = ((true, Some t2), h2) ->
  count t2 = count t1 /\
  db_get (Some t2) (Some s) = Some v2 /\
  contents t2 = <[s:=v2]> (contents t).
Proof.
  intros Hv Hn Hs1 Hs2.
  destruct (db_set_valid t s v1 h t1 h1 Hv Hn Hs1) as (Hv1 & _ & _).
  destruct (db_set_contents t s v1 h t1 h1 Hv Hs1) as [Hc1 _].
  destruct (db_set_contents t1 s v2 h1 t2 h2 Hv1 Hs2) as [Hc2 _].
  split; [|split; [by eapply db_set_get|]].
  - apply db_set_cases in Hs2 as (tr & _ & Hn2 & _ & _ & _ & Hcase); [|done].
    destruct Hcase as [[_ ->]|[Hout _]]; [done|].
    exfalso. apply Hout, (contents_dom t1 s Hv1).
    rewrite Hc1, lookup_insert_eq. by eexists.
  - by rewrite Hc2, Hc1, insert_insert_eq.
Qed.

Lemma set_twice_is_update_witness :
  exists t1 t2,
    db_set (Some created) (Some "alpha") (Some "1") [] = ((true, Some t1), []) /\
    db_set (Some t1) (Some "alpha") (Some "2") [] = ((true, Some t2), []) /\
    count t2 = 1 /\ db_get (Some t2) (Some "alpha") = Some "2".
Proof.
  eexists _, _. split; [reflexivity|]. split; [reflexivity|].
  destruct (set_twice_is_update created "alpha" "1" "2" [] _ [] _ []
              valid_created ltac:(vm_compute; reflexivity) eq_refl eq_refl)
    as (Hn & Hg & _).
  split; [rewrite Hn; reflexivity | exact Hg].
Defined.

(** X9. [db_clear] empties the table and keeps its bucket array: the
    result satisfies the invariant at the same capacity, [count] is zero,
    every [db_get] finds nothing, [db_keys] returns NULL with out count
    zero, and [db_stats] is all zeros. *)
Theorem clear_empties_table t :
  valid t ->
  exists t', db_clear (Some t) = Some t' /\
             valid t' /\ capacity t' = capacity t /\ count t' = 0 /\
             contents t' = ∅ /\
             (forall k, db_get (Some t') (Some k) = None) /\
             (forall oc h, db_keys (Some t') (Some oc) h = ((None, Some 0), h)) /\
             db_stats (Some t') = mkStats 0 0 0 0.
Proof.
  intros Hv. eexists. split; [reflexivity|].
  destruct (valid_clear t _ Hv eq_refl) as (Hv' & Hn & Hcap & Hent).
  split; [done|]. split; [done|]. split; [done|].
  assert (contents (mkDB _ (capacity t) 0) = ∅) as Hc
    by (rewrite contents_entries, Hent; reflexivity).
  split; [done|]. split.
  { intros k. by rewrite db_get_contents, Hc. }
  split; [done|].
  pose proof (valid_capacity_pos t Hv) as Hpos.
  cbn [db_stats buckets capacity count].
  rewrite wrap_small by (unfold sizeof_ptr, SIZE_MAX; lia).
  unfold sizeof_ptr. rewrite Z.div_mul by lia.
  rewrite drop_ge by (rewrite <- (valid_length t Hv); lia).
  rewrite app_nil_r, take_replicate. apply stats_replicate.
Qed.

Lemma clear_empties_table_witness :
  exists t', db_clear (Some (table 49)) = Some t' /\
             capacity t' = 128 /\ count t' = 0 /\
             db_get (Some t') (Some "k1") = None.
Proof.
  destruct (clear_empties_table (table 49))
    as (t' & Hcl & _ & Hcap & Hn & _ & Hg & _).
  - apply valid_table; [vm_compute; reflexivity | lia].
  - exists t'. split; [exact Hcl|]. split; [rewrite Hcap; reflexivity|].
    split; [exact Hn | apply Hg].
Defined.

Lemma collisions_plus_used (bs : list chain) :
  sum_collisions bs + nonempty_buckets bs = Z.of_nat (length (concat bs)).
Proof.
  induction bs as [|[|x c] bs IH];
    cbn [sum_collisions nonempty_buckets concat]; [done|..].
  - unfold chain_length. cbn. lia.
  - rewrite length_app. unfold chain_length. cbn [length]. lia.
Qed.

Lemma db_stats_valid t :
  valid t ->
  db_stats (Some t)
  = mkStats (count t) (sum_collisions (buckets t))
            (longest_chain (buckets t)) (nonempty_buckets (buckets t)).
Proof.
  intros Hv.
  pose proof (valid_count t Hv) as Hc. unfold entries in Hc.
  pose proof (valid_count_size t Hv) as Hs.
  pose proof (valid_length t Hv) as Hl.
  pose proof (valid_capacity_pos t Hv) as Hcap.
  pose proof (longest_chain_bounds (buckets t)) as [Hlb _].
  cbn [db_stats]. rewrite (valid_take_buckets t Hv).
  rewrite stats_fold; cbn; try lia; [f_equal; lia|].
  unfold SIZE_MAX. lia.
Qed.

Lemma foldl_insert_notin (kvs : list (string * string)) (m : gmap string string) k :
  k ∉ kvs.*1 ->
  foldl (fun m kv => <[kv.1:=kv.2]> m) m kvs !! k = m !! k.
Proof.
  revert m. induction kvs as [|[k0 v0] kvs IH]; intros m; cbn; [done|].
  rewrite not_elem_of_cons. intros [Hne Hk].
  rewrite IH by done. by apply lookup_insert_ne.
Qed.

Lemma foldl_insert_elem (kvs : list (string * string)) (m : gmap string string) k v :
  NoDup (kvs.*1) -> (k, v) ∈ kvs ->
  foldl (fun m kv => <[kv.1:=kv.2]> m) m kvs !! k = Some v.
Proof.
  revert m. induction kvs as [|[k0 v0] kvs IH]; intros m; cbn.
  - by intros _ ?%elem_of_nil.
  - intros [Hk0 Hnd]%NoDup_cons [[= -> ->]|Hin]%elem_of_cons.
    + rewrite foldl_insert_notin by done. apply lookup_insert_eq.
    + by apply IH.
Qed.

Lemma set_all_contents kvs t h t' h' :
  valid t -> count t + Z.of_nat (length kvs) <= SIZE_MAX ->
  set_all t kvs h = (Some t', h') ->
  valid t' /\
  contents t' = foldl (fun m kv => <[kv.1:=kv.2]> m) (contents t) kvs.
Proof.
  revert t h. induction kvs as [|[s v] kvs IH]; intros t h Hv Hn;
    cbn [set_all foldl length] in *.
  - unfold ret. by intros [= <- <-].
  - unfold bind.
    destruct (db_set (Some t) (Some s) (Some v) h) as [[[] [t1|]] h1] eqn:Hs;
      try (unfold ret; congruence).
    destruct (db_set_valid t s v h t1 h1 Hv) as (Hv1 & _ & Hcase); [lia|done|].
    destruct (db_set_contents t s v h t1 h1 Hv Hs) as [Hc1 _].
    intros Hall. destruct (IH t1 h1 Hv1) as [Hv' Hc']; [|done|].
    + destruct Hcase as [(_ & -> & _)|(_ & -> & _)]; lia.
    + split; [done|]. by rewrite Hc', Hc1.
Qed.

(** X10. A table with the invariant represents a finite map: [db_get] is
    its lookup, [db_exists] its domain test, [db_count] its size, and its
    bindings are the key-value pairs of the entries, each once. *)
Theorem table_represents_map t :
  valid t ->
  (forall k, db_get (Some t) (Some k) = contents t !! k) /\
  (forall k, db_exists (Some t) (Some k) = bool_decide (k ∈ dom (contents t))) /\
  db_count (Some t) = Z.of_nat (size (contents t)) /\
  map_to_list (contents t) ≡ₚ pair_of <$> entries t.
Proof.
  intros Hv. split; [intros k; by apply db_get_contents|]. split.
  - intros k. unfold db_exists. rewrite db_get_contents by done.
    destruct (contents t !! k) eqn:Hk.
    + symmetry. apply bool_decide_eq_true. apply elem_of_dom. by eexists.
    + symmetry. apply bool_decide_eq_false. by apply not_elem_of_dom.
  - split; [by apply contents_size|].
    rewrite contents_entries. apply map_to_list_to_map.
    rewrite pair_of_keys. apply Hv.
Qed.

Lemma table_represents_map_witness :
  db_get (Some (table 2)) (Some "k2") = contents (table 2) !! "k2" /\
  db_count (Some (table 2)) = Z.of_nat (size (contents (table 2))).
Proof.
  destruct (table_represents_map (table 2)) as (Hg & _ & Hn & _).
  - apply valid_table; [vm_compute; reflexivity | lia].
  - split; [apply Hg | exact Hn].
Defined.

(** X11. The statistics add up: in every table [total_collisions] plus
    [used_buckets] is [total_entries], and neither [used_buckets] nor
    [max_chain_length] exceeds [total_entries]. *)
Theorem stats_add_up t :
  valid t ->
  total_collisions (db_stats (Some t)) + used_buckets (db_stats (Some t))
  = total_entries (db_stats (Some t)) /\
  0 <= total_collisions (db_stats (Some t)) /\
  0 <= used_buckets (db_stats (Some t)) <= total_entries (db_stats (Some t)) /\
  0 <= max_chain_length (db_stats (Some t)) <= total_entries (db_stats (Some t)).
Proof.
  intros Hv. rewrite db_stats_valid by done.
  cbn [total_entries total_collisions max_chain_length used_buckets].
  pose proof (collisions_plus_used (buckets t)) as Hsum.
  pose proof (sum_collisions_bounds (buckets t)) as Hs.
  pose proof (nonempty_buckets_bounds (buckets t)) as Hn.
  pose proof (longest_chain_bounds (buckets t)) as [Hl _].
  pose proof (valid_count t Hv) as Hc. unfold entries in Hc. lia.
Qed.

Lemma stats_add_up_witness :
  total_collisions (db_stats (Some (table 49)))
  + used_buckets (db_stats (Some (table 49))) = 49.
Proof.
  destruct (stats_add_up (table 49)) as [Hs _].
  - apply valid_table; [vm_compute; reflexivity | lia].
  - etransitivity; [exact Hs | vm_compute; reflexivity].
Defined.

(** X12. [db_create] returns a table or NULL, nothing in between: a table
    exactly when its two allocations succeed, and then one that satisfies
    the invariant with capacity 64, count 0 and no key. *)
Theorem create_empty_or_null h :
  match db_create h with
  | (Some t, _) =>
      all_succeed (take 2 h) /\ valid t /\ capacity t = 64 /\ count t = 0 /\
      contents t = ∅ /\ (forall k, db_get (Some t) (Some k) = None)
  | (None, _) => ~ all_succeed (take 2 h)
  end.
Proof.
  destruct (db_create h) as [[t|] h'] eqn:Hc.
  - pose proof (valid_create h t h' Hc) as Hv.
    pose proof (db_create_Some h t h' Hc) as Ht.
    assert (contents t = ∅) as Hm.
    { rewrite Ht, contents_entries. unfold entries; cbn [buckets].
      by rewrite concat_replicate_nil. }
    split.
    + destruct h as [|[] [|[] h2]]; vm_compute in Hc; try discriminate;
        repeat constructor.
    + split; [done|]. split; [by rewrite Ht|]. split; [by rewrite Ht|].
      split; [done|]. intros k. by rewrite db_get_contents, Hm.
  - destruct h as [|[] [|[] h2]]; vm_compute in Hc; try discriminate;
      cbn [take]; intros Hall.
    + apply Forall_cons in Hall as [_ Hall]. by apply Forall_cons in Hall as [? _].
    + by apply Forall_cons in Hall as [? _].
    + by apply Forall_cons in Hall as [? _].
    + by apply Forall_cons in Hall as [? _].
Qed.

(** X13. In every table the bucket index [db_set], [db_get] and
    [db_delete] compute for a key is the hash modulo the capacity, and it
    lies inside the bucket array. *)
Theorem bucket_index_in_array t s :
  valid t ->
  bucket_index (fnv1a s) (capacity t) = fnv1a s mod capacity t /\
  0 <= bucket_index (fnv1a s) (capacity t) < Z.of_nat (length (buckets t)).
Proof.
  intros Hv. destruct (valid_capacity t Hv) as (k & Hk & Hcap).
  rewrite (valid_length t Hv), Hcap. split.
  - apply bucket_index_pow2. lia.
  - apply bucket_index_range. lia.
Qed.

Lemma bucket_index_in_array_witness :
  bucket_index (fnv1a "k30") (capacity (table 49))
  = fnv1a "k30" mod capacity (table 49).
Proof.
  apply (bucket_index_in_array (table 49) "k30").
  apply valid_table; [vm_compute; reflexivity | lia].
Defined.

(** X14. A run of successful [db_set] calls builds the map by successive
    insertion, the last value set for a key winning.  With pairwise
    distinct keys every pair set is retrievable, and a key that was not
    set keeps what [db_get] returned before. *)
Theorem set_all_builds_map kvs t h t' h' :
  valid t -> count t + Z.of_nat (length kvs) <= SIZE_MAX ->
  set_all t kvs h = (Some t', h') ->
  valid t' /\
  contents t' = foldl (fun m kv => <[kv.1:=kv.2]> m) (contents t) kvs /\
  (NoDup (kvs.*1) ->
   forall k v, (k, v) ∈ kvs -> db_get (Some t') (Some k) = Some v) /\
  (forall k, k ∉ kvs.*1 ->
             db_get (Some t') (Some k) = db_get (Some t) (Some k)).
Proof.
  intros Hv Hn Hall.
  destruct (set_all_contents kvs t h t' h' Hv Hn Hall) as [Hv' Hc].
  split; [done|]. split; [done|]. split.
  - intros Hnd k v Hin. rewrite db_get_contents, Hc by done.
    by apply foldl_insert_elem.
  - intros k Hk. rewrite !db_get_contents, Hc by done.
    by apply foldl_insert_notin.
Qed.

Lemma set_all_builds_map_witness :
  db_get (Some (table 49)) (Some "k17") = Some "v" /\
  db_get (Some (table 49)) (Some "k50") = None.
Proof.
  destruct (set_all_builds_map (pairs 49) created [] (table 49) [])
    as (_ & _ & Hin & Hout).
  - apply valid_created.
  - vm_compute. discriminate.
  - vm_compute. reflexivity.
  - split.
    + apply Hin.
      * apply (bool_decide_unpack _). vm_compute. exact I.
      * apply (bool_decide_unpack _). vm_compute. exact I.
    + rewrite Hout; [reflexivity|].
      apply (bool_decide_unpack _). vm_compute. exact I.
Defined.

(** ** Allocation failure in [db_keys] *)

Lemma all_succeed_cons b h : all_succeed (b :: h) <-> b = true /\ all_succeed h.
Proof. unfold all_succeed. by rewrite Forall_cons. Qed.

Lemma keys_chain_run e arr h :
  (all_succeed (take (length e) h) ->
   keys_chain e arr h = (Some (arr ++ (key <$> e)), drop (length e) h)) /\
  (~ all_succeed (take (length e) h) -> (keys_chain e arr h).1 = None).
Proof.
  revert arr h. induction e as [|x e IH]; intros arr h; cbn [keys_chain length].
  - split; [intros _; cbn; by rewrite app_nil_r|].
    intros Hn. exfalso. apply Hn. rewrite take_0. constructor.
  - unfold dup_str, bind, ret. destruct h as [|b h]; cbn.
    + destruct (IH (arr ++ [key x]) []) as [Hok Hko].
      rewrite take_nil, drop_nil in *. split.
      * intros _. rewrite Hok by constructor. by rewrite <- app_assoc.
      * intros Hn. exfalso. apply Hn. constructor.
    + destruct (IH (arr ++ [key x]) h) as [Hok Hko].
      rewrite all_succeed_cons. destruct b.
      * split.
        -- intros [_ Hh]. rewrite Hok by done. by rewrite <- app_assoc.
        -- intros Hn. apply Hko. tauto.
      * split; [by intros [? _] | done].
Qed.

Lemma keys_buckets_run (bs : list chain) cnt arr h :
  Z.of_nat (length arr + length (concat bs)) = cnt ->
  (all_succeed (take (length (concat bs)) h) ->
   keys_buckets bs cnt arr h
   = (Some (arr ++ (key <$> concat bs)), drop (length (concat bs)) h)) /\
  (~ all_succeed (take (length (concat bs)) h) ->
   (keys_buckets bs cnt arr h).1 = None).
Proof.
  revert arr h. induction bs as [|e bs IH]; intros arr h Hcnt;
    cbn [keys_buckets concat] in *.
  - split; [intros _; cbn; by rewrite app_nil_r|].
    intros Hn. exfalso. apply Hn. cbn. rewrite take_0. constructor.
  - rewrite length_app in *. unfold bind, ret.
    destruct (Z.ltb_spec (Z.of_nat (length arr)) cnt) as [Hlt|Hge].
    + rewrite <- take_take_drop. unfold all_succeed. rewrite Forall_app.
      fold (all_succeed (take (length e) h)).
      fold (all_succeed (take (length (concat bs)) (drop (length e) h))).
      destruct (keys_chain_run e arr h) as [Hok Hko].
      destruct (IH (arr ++ (key <$> e)) (drop (length e) h)) as [Hok' Hko'].
      { rewrite length_app, length_fmap. lia. }
      split.
      * intros [H1 H2]. rewrite Hok, Hok' by done.
        by rewrite fmap_app, app_assoc, drop_drop.
      * intros Hn. destruct (decide (all_succeed (take (length e) h))) as [H1|H1].
        -- rewrite Hok by done. apply Hko'. tauto.
        -- specialize (Hko H1). destruct (keys_chain e arr h) as [[?|] ?]; done.
    + assert (e ++ concat bs = []) as Hnil
        by (apply nil_length_inv; rewrite length_app; lia).
      apply app_eq_nil in Hnil as [-> ->]. cbn. split.
      * intros _. by rewrite app_nil_r.
      * intros Hn. exfalso. apply Hn. rewrite take_0. constructor.
Qed.

(** X15. [db_keys] on a table that is not empty makes [count + 1]
    allocation requests and is all or nothing: when all of them succeed it
    returns the [count] keys, in bucket order, and the out count; when
    one of them fails it returns NULL and the out count zero. *)
Theorem keys_all_or_nothing t oc h :
  valid t -> count t <> 0 ->
  (all_succeed (take (S (Z.to_nat (count t))) h) ->
   db_keys (Some t) (Some oc) h
   = ((Some (stored_keys t), Some (count t)), drop (S (Z.to_nat (count t))) h)) /\
  (~ all_succeed (take (S (Z.to_nat (count t))) h) ->
   fst (db_keys (Some t) (Some oc) h) = (None, Some 0)).
Proof.
  intros Hv Hne.
  pose proof (valid_count t Hv) as Hc. unfold entries in Hc.
  assert (Z.to_nat (count t) = length (concat (buckets t))) as Hlen by lia.
  rewrite Hlen. cbn [db_keys]. unfold bind, ret.
  destruct (Z.eqb_spec (count t) 0) as [|_]; [done|].
  rewrite (valid_take_buckets t Hv).
  destruct h as [|b h]; cbn [malloc take drop].
  - destruct (keys_buckets_run (buckets t) (count t) [] []) as [Hok _];
      [cbn; lia|].
    rewrite take_nil, drop_nil in *. cbn [negb]. split.
    + intros _. rewrite Hok by constructor. cbn.
      fold (entries t). fold (stored_keys t).
      unfold stored_keys, entries. rewrite length_fmap. by rewrite <- Hc.
    + intros Hn. exfalso. apply Hn. constructor.
  - destruct (keys_buckets_run (buckets t) (count t) [] h) as [Hok Hko];
      [cbn; lia|].
    rewrite all_succeed_cons. destruct b; cbn [negb].
    + split.
      * intros [_ Hh]. rewrite Hok by done. cbn.
        fold (entries t). fold (stored_keys t).
        unfold stored_keys, entries. rewrite length_fmap. by rewrite <- Hc.
      * intros Hn. assert (~ all_succeed (take (length (concat (buckets t))) h))
          as Hn' by tauto.
        specialize (Hko Hn').
        destruct (keys_buckets (buckets t) (count t) [] h) as [[?|] ?]; done.
    + split; [by intros [? _] | done].
Qed.

Lemma keys_all_or_nothing_witness :
  db_keys (Some (table 2)) (Some 0) [true; true; true; false]
  = ((Some ["k1"; "k2"], Some 2), [false]) /\
  fst (db_keys (Some (table 2)) (Some 0) [true; true; false]) = (None, Some 0).
Proof.
  destruct (keys_all_or_nothing (table 2) 0 [true; true; true; false])
    as [Hok _].
  { apply valid_table; [vm_compute; reflexivity | lia]. }
  { vm_compute. discriminate. }
  destruct (keys_all_or_nothing (table 2) 0 [true; true; false])
    as [_ Hko].
  { apply valid_table; [vm_compute; reflexivity | lia]. }
  { vm_compute. discriminate. }
  split.
  - etransitivity; [apply Hok; vm_compute; repeat constructor|].
    vm_compute. reflexivity.
  - apply Hko. vm_compute. intros Hall.
    apply Forall_cons in Hall as [_ Hall].
    apply Forall_cons in Hall as [_ Hall].
    apply Forall_cons in Hall as [Hf _]. discriminate Hf.
Defined.

(** ** [db_print] *)

Lemma append_assoc (a b c : string) : (a +:+ b) +:+ c = a +:+ b +:+ c.
Proof.
  induction a as [|x a IH]; [reflexivity|].
  change (String x ((a +:+ b) +:+ c) = String x (a +:+ b +:+ c)).
  by rewrite IH.
Qed.

Lemma append_nil_r (a : string) : a +:+ EmptyString = a.
Proof.
  induction a as [|x a IH]; [reflexivity|].
  change (String x (a +:+ EmptyString) = String x a). by rewrite IH.
Qed.

Lemma print_buckets_concat (bs : list chain) out :
  fold_left print_chain bs out = fold_left print_entry (concat bs) out.
Proof.
  revert out. induction bs as [|c bs IH]; intros out; cbn; [done|].
  rewrite fold_left_app. apply IH.
Qed.

Lemma print_entries_lines t (es : list Entry) out :
  (forall x, x ∈ es -> db_get (Some t) (Some (key x)) = Some (value x)) ->
  fold_left print_entry es out = out +:+ printed_lines t (key <$> es).
Proof.
  revert out. induction es as [|x es IH]; intros out Hg;
    cbn [fold_left fmap list_fmap printed_lines foldr].
  - by rewrite append_nil_r.
  - rewrite IH by (intros y Hy; apply Hg; by right).
    rewrite (Hg x) by left. cbn [default from_option id].
    unfold print_entry. fold (printed_lines t (key <$> es)).
    by rewrite !append_assoc.
Qed.

(** X16. [db_print] writes the header with [count] in decimal and then one
    line per stored key, in the order in which [db_keys] returns the keys,
    each key with the value [db_get] returns for it. *)
Theorem print_lists_keys_in_order t :
  valid t ->
  db_print (Some t)
  = "Database Contents (" +:+ print_size (count t) +:+ " entries):"
    +:+ newline +:+ printed_lines t (stored_keys t) /\
  (forall oc h arr out h',
      db_keys (Some t) (Some oc) h = ((Some arr, out), h') ->
      arr = stored_keys t).
Proof.
  intros Hv. split.
  - cbn [db_print]. rewrite (valid_take_buckets t Hv), print_buckets_concat.
    rewrite (print_entries_lines t).
    + fold (entries t). fold (stored_keys t). by rewrite !append_assoc.
    + intros x Hx. by apply (db_get_entry t Hv).
  - intros oc h arr out h'. cbn [db_keys]. unfold bind, ret.
    destruct (Z.eqb_spec (count t) 0); [congruence|].
    destruct (malloc _ h) as [[] h1]; cbn [negb]; [|congruence].
    rewrite (valid_take_buckets t Hv).
    destruct (keys_buckets (buckets t) (count t) [] h1) as [[a|] h2] eqn:Hk;
      [|congruence].
    apply keys_buckets_Some in Hk; [|cbn; apply (eq_sym (valid_count t Hv))].
    cbn in Hk. subst a. by intros [= <- _ _].
Qed.

Lemma print_lists_keys_in_order_witness :
  db_print (Some (table 2))
  = "Database Contents (2 entries):" +:+ newline
    +:+ "  k1 -> v" +:+ newline +:+ "  k2 -> v" +:+ newline.
Proof.
  destruct (print_lists_keys_in_order (table 2)) as [Hp _].
  - apply valid_table; [vm_compute; reflexivity | lia].
  - etransitivity; [exact Hp | vm_compute; reflexivity].
Defined.

(** ** Order of the entries *)

Lemma filter_all {A} (P : A -> Prop) `{forall x, Decision (P x)} (l : list A) :
  (forall x, x ∈ l -> P x) -> filter P l = l.
Proof.
  induction l as [|x l IH]; intros Hall; [done|].
  rewrite filter_cons_True by (apply Hall; left).
  f_equal. apply IH. intros y Hy. apply Hall. by right.
Qed.

Lemma chain_unlink_filter (e : list Entry) s c :
  NoDup (key <$> e) -> chain_unlink e s = Some c ->
  c = filter (fun x => key x <> s) e.
Proof.
  revert c. induction e as [|x e IH]; intros c; cbn [chain_unlink]; [done|].
  rewrite fmap_cons. intros [Hx Hnd]%NoDup_cons. rewrite filter_cons.
  destruct (strcmp0 (key x) s) eqn:E.
  - apply strcmp0_true in E. intros [= <-].
    destruct (decide (key x <> s)) as [|_]; [done|].
    symmetry. apply filter_all. intros y Hy Hys.
    apply Hx. rewrite E, <- Hys. by apply list_elem_of_fmap_2.
  - apply strcmp0_false in E.
    destruct (chain_unlink e s) as [c'|]; cbn; [|done].
    intros [= <-]. destruct (decide (key x <> s)); [|done].
    f_equal. by apply IH.
Qed.

Lemma concat_filter {A} (P : A -> Prop) `{forall x, Decision (P x)}
    (ls : list (list A)) :
  concat (filter P <$> ls) = filter P (concat ls).
Proof.
  induction ls as [|l ls IH]; cbn; [done|]. by rewrite IH, filter_app.
Qed.

Lemma unlinked_buckets t s c :
  valid t ->
  chain_unlink (bucket_at (buckets t) (bucket_index (fnv1a s) (capacity t))) s
  = Some c ->
  buckets (unlinked t s c) = filter (fun x => key x <> s) <$> buckets t.
Proof.
  intros Hv Hu. pose proof (valid_home_lookup t Hv s) as Hl.
  apply chain_unlink_filter in Hu; [|apply (valid_home_distinct t Hv)].
  cbn [unlinked buckets]. unfold bucket_store.
  apply list_eq. intros i. rewrite list_lookup_fmap.
  destruct (decide (Z.to_nat (bucket_index (fnv1a s) (capacity t)) = i))
    as [<-|Hne].
  - rewrite list_lookup_insert_eq by (by eapply lookup_lt_Some).
    by rewrite Hl, Hu.
  - rewrite list_lookup_insert_ne by done.
    destruct (buckets t !! i) as [c'|] eqn:Hi; cbn; [|done].
    f_equal. symmetry. apply filter_all. intros x Hx Hk. apply Hne.
    rewrite <- Hk, (valid_homed t Hv i c' x Hi Hx). lia.
Qed.

(** X17. Deleting a key twice: whatever the first [db_delete] returns, the
    second returns false and leaves the table as the first left it. *)
Theorem delete_twice t s r t1 :
  valid t -> db_delete (Some t) (Some s) = (r, Some t1) ->
  db_delete (Some t1) (Some s) = (false, Some t1).
Proof.
  intros Hv Hd.
  destruct (db_delete_contents t s r t1 Hv Hd) as (Hv1 & Hc & _).
  assert (db_get (Some t1) (Some s) = None) as Hg
    by (rewrite db_get_contents, Hc by done; apply lookup_delete_eq).
  cbn [db_delete db_get] in *.
  apply chain_get_None, chain_unlink_None in Hg. by rewrite Hg.
Qed.

Lemma delete_twice_witness :
  db_delete (Some (unlinked (table 2) "k1" [])) (Some "k1")
  = (false, Some (unlinked (table 2) "k1" [])).
Proof.
  apply (delete_twice (table 2) "k1" true).
  - apply valid_table; [vm_compute; reflexivity | lia].
  - vm_compute. reflexivity.
Defined.

(** X18. An insertion that does not resize links the new entry at the head
    of the chain of its bucket and touches nothing else: the other entries
    of that chain follow in their order, every other bucket is as it was,
    and [count] is one more. *)
Theorem insert_links_at_head t s v h t' h' :
  valid t -> count t < SIZE_MAX ->
  db_exists (Some t) (Some s) = false -> load_exceeded t = false ->
  db_set (Some t) (Some s) (Some v) h = ((true, Some t'), h') ->
  bucket_at (buckets t') (bucket_index (fnv1a s) (capacity t))
  = mkEntry s v :: bucket_at (buckets t) (bucket_index (fnv1a s) (capacity t)) /\
  (forall j, j <> bucket_index (fnv1a s) (capacity t) -> 0 <= j ->
             bucket_at (buckets t') j = bucket_at (buckets t) j) /\
  capacity t' = capacity t /\ count t' = count t + 1.
Proof.
  intros Hv Hn Hex Hle Hs.
  assert (s ∉ stored_keys t) as Hout.
  { apply (db_get_None t Hv). unfold db_exists in Hex.
    by destruct (db_get (Some t) (Some s)). }
  apply db_set_cases in Hs as (tr & _ & _ & _ & _ & Hsame & Hcase); [|done].
  rewrite (Hsame Hle) in Hcase. destruct Hcase as [[? _]|[_ ->]]; [done|].
  cbn [inserted buckets capacity count].
  pose proof (valid_count_nonneg t Hv).
  pose proof (valid_home_lookup t Hv s) as Hl%lookup_lt_Some.
  destruct (valid_capacity t Hv) as (k & Hk & Hcap).
  pose proof (bucket_index_range (fnv1a s) k ltac:(lia)) as Hr.
  rewrite <- Hcap in Hr.
  split; [apply bucket_at_store; lia|].
  split; [|split; [done | apply wrap_small; unfold SIZE_MAX in *; lia]].
  intros j Hj Hj0. unfold bucket_at, bucket_store.
  rewrite list_lookup_insert_ne by lia. done.
Qed.

Lemma insert_links_at_head_witness :
  bucket_at (buckets (table 41)) 17
  = mkEntry "k41" "v" :: bucket_at (buckets (table 40)) 17.
Proof.
  destruct (insert_links_at_head (table 40) "k41" "v" [] (table 41) [])
    as [Hb _].
  - apply valid_table; [vm_compute; reflexivity | lia].
  - vm_compute. reflexivity.
  - vm_compute. reflexivity.
  - vm_compute. reflexivity.
  - vm_compute. reflexivity.
  - exact Hb.
Defined.

(** X19. [db_delete] keeps the order of the entries that stay: the
    entries after a successful [db_delete] of [s], bucket by bucket and
    chain by chain, are the entries before it without the one for [s], so
    [db_keys] lists the remaining keys in the order it listed them
    before. *)
Theorem delete_keeps_order t s t' :
  valid t -> db_delete (Some t) (Some s) = (true, Some t') ->
  entries t' = filter (fun x => key x <> s) (entries t) /\
  stored_keys t' = filter (fun k => k <> s) (stored_keys t).
Proof.
  intros Hv. cbn [db_delete].
  destruct (chain_unlink _ s) as [c|] eqn:Hu; [|congruence].
  intros [= <-]. fold (unlinked t s c).
  assert (entries (unlinked t s c) = filter (fun x => key x <> s) (entries t))
    as He.
  { unfold entries. rewrite (unlinked_buckets t s c Hv Hu). apply concat_filter. }
  split; [done|]. unfold stored_keys. rewrite He.
  generalize (entries t). intros es.
  induction es as [|x es IH]; [done|].
  rewrite fmap_cons, !filter_cons.
  destruct (decide (key x <> s)); [rewrite fmap_cons|]; by rewrite IH.
Qed.

Lemma delete_keeps_order_witness :
  stored_keys (table 3) = ["k1"; "k3"; "k2"] /\
  stored_keys (unlinked (table 3) "k3" []) = ["k1"; "k2"].
Proof.
  destruct (delete_keeps_order (table 3) "k3" (unlinked (table 3) "k3" []))
    as [_ Hk].
  - apply valid_table; [vm_compute; reflexivity | lia].
  - vm_compute. reflexivity.
  - split; [vm_compute; reflexivity|].
    etransitivity; [exact Hk | vm_compute; reflexivity].
Defined.

(** ** The invariant over every run *)

Lemma db_set_false_valid t s v h t' h' :
  valid t ->
  db_set (Some t) (Some s) (Some v) h = ((false, Some t'), h') ->
  valid t' /\ count t' = count t /\
  (capacity t' = capacity t \/ capacity t' = 2 * capacity t).
Proof.
  intros Hv. rewrite db_set_steps.
  destruct (resize_if_exceeded t h) as [[ok tr] h1] eqn:Hr.
  destruct (resize_contents t h ok tr h1 Hv Hr) as (Hvr & _ & Hn & Hcap).
  destruct ok; cbn [fst snd negb].
  - destruct (set_in_bucket tr s v h1) as [[ok' t2] h2] eqn:Hs. cbn [fst snd].
    intros [= -> <- <-]. by apply set_in_bucket_false in Hs as ->.
  - by intros [= <- <-].
Qed.

(** X20. Every table the interface can produce (from [db_create] by
    [db_set] calls that succeed or fail, [db_delete] and [db_clear], with
    fewer than [2^53] [db_set] calls, the range in which the load-factor
    test is exact) satisfies the table invariant and has
    [count / capacity <= 0.75]. *)
Theorem invariant_of_every_run n t :
  op_reachable n t -> Z.of_nat n < 2 ^ 53 ->
  valid t /\ 4 * count t <= 3 * capacity t /\ count t <= Z.of_nat n.
Proof.
  induction 1 as [h t h' Hc
                 | n t s v h b t' h' Hr IH Hs
                 | n t s b t' Hr IH Hd
                 | n t t' Hr IH Hcl]; intros Hn.
  - split; [by eapply valid_create|].
    apply db_create_Some in Hc as ->. cbn. unfold INITIAL_CAPACITY. lia.
  - destruct IH as (Hv & Hload & Hcnt); [lia|].
    pose proof (valid_count_nonneg t Hv) as H0.
    pose proof (valid_capacity_pos t Hv) as Hpos.
    destruct b.
    + destruct (valid_capacity t Hv) as (k & Hk & Hcap).
      destruct (db_set_valid t s v h t' h' Hv) as (Hv' & Hcap' & Hcase);
        [unfold SIZE_MAX; lia | done |].
      rewrite (load_exceeded_exact t k) in Hcap' by lia.
      split; [done|].
      destruct (Z.ltb_spec (3 * capacity t) (4 * (count t + 1)));
        destruct Hcase as [(_ & -> & _)|(_ & -> & _)]; lia.
    + destruct (db_set_false_valid t s v h t' h' Hv Hs) as (Hv' & -> & Hcap).
      split; [done|]. lia.
  - destruct IH as (Hv & Hload & Hcnt); [lia|].
    destruct (db_delete_contents t s b t' Hv Hd) as (Hv' & _ & _ & Hc & Hcap).
    pose proof (valid_count_nonneg t' Hv').
    split; [done|]. destruct b; lia.
  - destruct IH as (Hv & Hload & Hcnt); [lia|].
    destruct (valid_clear t t' Hv Hcl) as (Hv' & -> & Hcap & _).
    pose proof (valid_capacity_pos t Hv). split; [done|]. lia.
Qed.

Lemma invariant_of_every_run_witness :
  valid (unlinked (table 2) "k1" []) /\
  4 * count (unlinked (table 2) "k1" [])
  <= 3 * capacity (unlinked (table 2) "k1" []).
Proof.
  destruct (invariant_of_every_run 2 (unlinked (table 2) "k1" []))
    as (Hv & Hl & _).
  - apply (opr_delete 2 (table 2) "k1" true).
    + apply (opr_set 1 (table 1) "k2" "v" [] true (table 2) []).
      * apply (opr_set 0 created "k1" "v" [] true (table 1) []).
        -- apply (opr_create [] created []). reflexivity.
        -- vm_compute. reflexivity.
      * vm_compute. reflexivity.
    + vm_compute. reflexivity.
  - lia.
  - split; [exact Hv | exact Hl].
Defined.
